(** * Smoke/fluids.c : the stable-fluids solver, embedded and verified

    The simulation code of [src/Smoke/fluids.c] ([init_simulation], [clamp],
    [solve], [diffuse_matter], [set_forces], [do_one_simulation_step]) is
    translated function by function, followed by the helpers of the
    visualization ([rotational_increment], [BilinearInterpolation],
    [hsv2rgb], [rainbow], [set_colormap], [scalar_to_color], the glyph
    sampling of [visualize]) and the interaction callbacks ([keyboard],
    [drag]).  The OpenGL/GLUT calls themselves are not modelled.

    Modelling choices.
    - [fftw_real] is FFTW's default, [double]; [double] values are exact
      rationals [Q], so the rounding of double-precision arithmetic is not
      modelled.  Where the simulation code narrows a value to [float] the
      rounding to binary32 is modelled, by [f32]: at the parameter of
      [clamp] and its subtraction [1-(x)], and at the quotients [0.5f/n]
      and [1.0f/n] from which the advection loops build their coordinates.
      The [float] parameters of the visualization helpers are exact
      rationals.  Equalities between computed values are stated with [==]
      ([Qeq]) unless both sides are the same computation.
    - C [int] values are [Z]; [%] is [Z.rem] (truncated remainder) and the
      cast [(int)x] is [Qtrunc] (truncation towards zero).
    - The eight global arrays are the cells of a store [mem], addressed by
      the pointer names [ptr]; [solve] and [diffuse_matter] take pointers,
      as in C, so aliasing is visible.  An array is a [list Q]; a write
      outside the list (undefined behaviour in C) leaves the list as it is
      and a read outside it yields [0].
    - The FFTW transforms and libm's [exp] are external: they are the
      fields of a record [libs] that [solve] takes as a parameter; a plan
      is the grid size it was created for. *)

From Stdlib Require Import ZArith QArith Qround Qabs Qpower Lia Lqa Floats Ascii String.
From stdpp Require Import base decidable list.

Open Scope Z_scope.
Set Warnings "-inexact-float".

(** ** Numbers *)

(** The cast [(int)(x)]: truncation towards zero. *)
Definition Qtrunc (x : Q) : Z := Z.quot (Qnum x) (Zpos (Qden x)).

(** [2^e] *)
Definition pow2 (e : Z) : Q := ((2 # 1) ^ e)%Q.

(** The binary exponent of a non-zero rational: the [k] with
    [2^k <= |x| < 2^(k+1)]. *)
Definition ilog2 (x : Q) : Z :=
  let k := Z.log2 (Z.abs (Qnum x)) - Z.log2 (Zpos (Qden x)) in
  if Qle_bool (pow2 k) (Qabs x) then k else k - 1.

(** The nearest integer, a tie going to the even one. *)
Definition round_even (q : Q) : Z :=
  let f := Qfloor q in
  match (q - inject_Z f ?= 1 # 2)%Q with
  | Lt => f
  | Gt => f + 1
  | Eq => if Z.even f then f else f + 1
  end.

(** Conversion to [float], IEEE binary32: a significand of 24 bits, the
    least exponent -149 (below [2^-126] the values are subnormal), rounding
    to nearest, ties to even.  Overflow to infinity, from [2^128] on, is
    not modelled. *)
Definition f32 (x : Q) : Q :=
  if Qeq_bool x 0 then 0%Q
  else let e := Z.max (ilog2 x - 23) (-149) in
       (inject_Z (round_even (x / pow2 e)) * pow2 e)%Q.

(** [int clamp(float x) { return ((x)>=0.0?((int)(x)):(-((int)(1-(x))))); }]

    The argument, a [double] at every call, is converted to [float] on
    entry; [1-(x)] is a [float] subtraction. *)
Definition clamp (x : Q) : Z :=
  let x := f32 x in
  if Qle_bool 0 x then Qtrunc x else - Qtrunc (f32 (1 - x)).

(** [(n+(i0%n))%n] *)
Definition wrap (n i0 : Z) : Z := Z.rem (n + Z.rem i0 n) n.

(** [(i0+1)%n] *)
Definition succ_wrap (n i0 : Z) : Z := Z.rem (i0 + 1) n.

(** The range of a 32-bit [int]. *)
Definition int_range (z : Z) : Prop := - 2 ^ 31 <= z < 2 ^ 31.

(** ** Arrays and the store *)

Definition ld (l : list Q) (i : Z) : Q := default 0%Q (l !! Z.to_nat i).
Definition st (l : list Q) (i : Z) (v : Q) : list Q := <[Z.to_nat i := v]> l.

Inductive ptr : Type := Pvx | Pvy | Pvx0 | Pvy0 | Pfx | Pfy | Prho | Prho0.

#[global] Instance ptr_eq_dec : EqDecision ptr.
Proof. solve_decision. Defined.

Definition mem : Type := ptr -> list Q.

Definition load (m : mem) (p : ptr) (i : Z) : Q := ld (m p) i.

Definition store (m : mem) (p : ptr) (i : Z) (v : Q) : mem :=
  fun q => if decide (q = p) then st (m p) i v else m q.

(** ** Loops *)

(** [for (i = i0; <cnt iterations>; i += di) body] *)
Fixpoint for_loop {A : Type} (cnt : nat) (i di : Z) (body : Z -> A -> A) (s : A) : A :=
  match cnt with
  | O => s
  | S c => for_loop c (i + di) di body (body i s)
  end.

(** [for (x = x0, i = i0; <cnt iterations>; i++, x += dx) body] *)
Fixpoint for_acc {A : Type} (cnt : nat) (i : Z) (x dx : Q)
    (body : Z -> Q -> A -> A) (s : A) : A :=
  match cnt with
  | O => s
  | S c => for_acc c (i + 1) (x + dx)%Q dx body (body i x s)
  end.

(** ** The semi-Lagrangian backtrace (fluids.c 140-147 and 198-207) *)

Record trace : Type := Trace
  { tr_i0 : Z; tr_i1 : Z; tr_j0 : Z; tr_j1 : Z; tr_s : Q; tr_t : Q }.

Definition half : Q := 5 # 10.

(** [x0 = n*(x-dt*u)-0.5f] *)
Definition back (n : Z) (x dt u : Q) : Q := (inject_Z n * (x - dt * u) - half)%Q.

Definition backtrace (n : Z) (x y dt u v : Q) : trace :=
  let x0 := back n x dt u in
  let y0 := back n y dt v in
  let i0 := clamp x0 in
  let s := (x0 - inject_Z i0)%Q in
  let i0 := wrap n i0 in
  let i1 := succ_wrap n i0 in
  let j0 := clamp y0 in
  let t := (y0 - inject_Z j0)%Q in
  let j0 := wrap n j0 in
  let j1 := succ_wrap n j0 in
  Trace i0 i1 j0 j1 s t.

(** [(1-s)*((1-t)*a[i0+n*j0]+t*a[i0+n*j1])+s*((1-t)*a[i1+n*j0]+t*a[i1+n*j1])] *)
Definition interp (n : Z) (a : list Q) (b : trace) : Q :=
  let '(Trace i0 i1 j0 j1 s t) := b in
  ((1 - s) * ((1 - t) * ld a (i0 + n * j0) + t * ld a (i0 + n * j1))
   + s * ((1 - t) * ld a (i1 + n * j0) + t * ld a (i1 + n * j1)))%Q.

(** ** External libraries

    [lib_r2c p] is [rfftwnd_one_real_to_complex] for a plan created for a
    [p] x [p] grid, [lib_c2r p] is [rfftwnd_one_complex_to_real], both in
    place on the padded buffer; [lib_exp] is [(fftw_real)exp(.)]. *)
Record libs : Type := Libs
  { lib_r2c : Z -> list Q -> list Q;
    lib_c2r : Z -> list Q -> list Q;
    lib_exp : Q -> Q }.

Definition setbuf (m : mem) (p : ptr) (l : list Q) : mem :=
  fun q => if decide (q = p) then l else m q.

(** [void FFT(int direction, void* vx)], on the global plans. *)
Definition FFT (L : libs) (plan_rc plan_cr : Z) (direction : Z) (p : ptr) (m : mem) : mem :=
  if Z.eqb direction 1 then setbuf m p (lib_r2c L plan_rc (m p))
  else setbuf m p (lib_c2r L plan_cr (m p)).

(** ** solve *)

(** fluids.c 134-135 *)
Definition add_forces (n : Z) (vx vy vx0 vy0 : ptr) (dt : Q) (m : mem) : mem :=
  for_loop (Z.to_nat (n * n)) 0 1 (fun i m =>
    let m := store m vx i (load m vx i + dt * load m vx0 i)%Q in
    let m := store m vx0 i (load m vx i) in
    let m := store m vy i (load m vy i + dt * load m vy0 i)%Q in
    store m vy0 i (load m vy i)) m.

(** fluids.c 139-150, the body of the advection loop of [solve] *)
Definition advect_velocity_cell (n : Z) (vx vy vx0 vy0 : ptr) (dt : Q)
    (i : Z) (x : Q) (j : Z) (y : Q) (m : mem) : mem :=
  let b := backtrace n x y dt (load m vx0 (i + n * j)) (load m vy0 (i + n * j)) in
  let m := store m vx (i + n * j) (interp n (m vx0) b) in
  store m vy (i + n * j) (interp n (m vy0) b).

(** [0.5f/n] and [1.0f/n]: [n] is converted to [float] and the division
    is a [float] division.  The coordinate itself is an [fftw_real]:
    [for ( x=0.5f/n,i=0 ; i<n ; i++,x+=1.0f/n )]. *)
Definition coord_first (n : Z) : Q := f32 (half / f32 (inject_Z n)).
Definition coord_step (n : Z) : Q := f32 (1 / f32 (inject_Z n)).

(** fluids.c 137-150 *)
Definition advect_velocity (n : Z) (vx vy vx0 vy0 : ptr) (dt : Q) (m : mem) : mem :=
  for_acc (Z.to_nat n) 0 (coord_first n) (coord_step n) (fun i x m =>
    for_acc (Z.to_nat n) 0 (coord_first n) (coord_step n) (fun j y m =>
      advect_velocity_cell n vx vy vx0 vy0 dt i x j y m) m) m.

(** fluids.c 152-154 *)
Definition pad_velocity (n : Z) (vx vy vx0 vy0 : ptr) (m : mem) : mem :=
  for_loop (Z.to_nat n) 0 1 (fun i m =>
    for_loop (Z.to_nat n) 0 1 (fun j m =>
      let m := store m vx0 (i + (n + 2) * j) (load m vx (i + n * j)) in
      store m vy0 (i + (n + 2) * j) (load m vy (i + n * j))) m) m.

(** [y = j<=n/2 ? (fftw_real)j : (fftw_real)j-n] *)
Definition fold_freq (n j : Z) : Q :=
  if Z.leb j (Z.quot n 2) then inject_Z j else (inject_Z j - inject_Z n)%Q.

(** fluids.c 164-174, the body of the frequency loop *)
Definition project_bin (L : libs) (n : Z) (vx0 vy0 : ptr) (visc dt : Q)
    (i : Z) (x : Q) (j : Z) (m : mem) : mem :=
  let y := fold_freq n j in
  let r := (x * x + y * y)%Q in
  if Qeq_bool r 0 then m else
  let f := lib_exp L (- r * dt * visc)%Q in
  let U0 := load m vx0 (i + (n + 2) * j) in
  let V0 := load m vy0 (i + (n + 2) * j) in
  let U1 := load m vx0 (i + 1 + (n + 2) * j) in
  let V1 := load m vy0 (i + 1 + (n + 2) * j) in
  let m := store m vx0 (i + (n + 2) * j) (f * ((1 - x * x / r) * U0 - x * y / r * V0))%Q in
  let m := store m vx0 (i + 1 + (n + 2) * j) (f * ((1 - x * x / r) * U1 - x * y / r * V1))%Q in
  let m := store m vy0 (i + (n + 2) * j) (f * (- y * x / r * U0 + (1 - y * y / r) * V0))%Q in
  store m vy0 (i + 1 + (n + 2) * j) (f * (- y * x / r * U1 + (1 - y * y / r) * V1))%Q.

(** fluids.c 159-176: [for (i=0;i<=n;i+=2)] runs [n/2+1] times. *)
Definition project (L : libs) (n : Z) (vx0 vy0 : ptr) (visc dt : Q) (m : mem) : mem :=
  for_loop (Z.to_nat (n / 2 + 1)) 0 2 (fun i m =>
    let x := (half * inject_Z i)%Q in
    for_loop (Z.to_nat n) 0 1 (fun j m =>
      project_bin L n vx0 vy0 visc dt i x j m) m) m.

(** fluids.c 181-184 *)
Definition normalize (n : Z) (vx vy vx0 vy0 : ptr) (m : mem) : mem :=
  let f := (1 / inject_Z (n * n))%Q in
  for_loop (Z.to_nat n) 0 1 (fun i m =>
    for_loop (Z.to_nat n) 0 1 (fun j m =>
      let m := store m vx (i + n * j) (f * load m vx0 (i + (n + 2) * j))%Q in
      store m vy (i + n * j) (f * load m vy0 (i + (n + 2) * j))%Q) m) m.

(** fluids.c 156-184: transform, per-bin update, inverse transform,
    division by [n*n]. *)
Definition spectral_step (L : libs) (plan_rc plan_cr : Z) (n : Z)
    (vx vy vx0 vy0 : ptr) (visc dt : Q) (m : mem) : mem :=
  let m := FFT L plan_rc plan_cr 1 vx0 m in
  let m := FFT L plan_rc plan_cr 1 vy0 m in
  let m := project L n vx0 vy0 visc dt m in
  let m := FFT L plan_rc plan_cr (-1) vx0 m in
  let m := FFT L plan_rc plan_cr (-1) vy0 m in
  normalize n vx vy vx0 vy0 m.

(** [void solve(int n, fftw_real* vx, fftw_real* vy, fftw_real* vx0,
    fftw_real* vy0, fftw_real visc, fftw_real dt)] *)
Definition solve (L : libs) (plan_rc plan_cr : Z) (n : Z)
    (vx vy vx0 vy0 : ptr) (visc dt : Q) (m : mem) : mem :=
  let m := add_forces n vx vy vx0 vy0 dt m in
  let m := advect_velocity n vx vy vx0 vy0 dt m in
  let m := pad_velocity n vx vy vx0 vy0 m in
  spectral_step L plan_rc plan_cr n vx vy vx0 vy0 visc dt m.

(** ** diffuse_matter *)

(** fluids.c 197-209 *)
Definition advect_matter_cell (n : Z) (vx vy rho rho0 : ptr) (dt : Q)
    (i : Z) (x : Q) (j : Z) (y : Q) (m : mem) : mem :=
  let b := backtrace n x y dt (load m vx (i + n * j)) (load m vy (i + n * j)) in
  store m rho (i + n * j) (interp n (m rho0) b).

(** [void diffuse_matter(int n, fftw_real *vx, fftw_real *vy,
    fftw_real *rho, fftw_real *rho0, fftw_real dt)] *)
Definition diffuse_matter (n : Z) (vx vy rho rho0 : ptr) (dt : Q) (m : mem) : mem :=
  for_acc (Z.to_nat n) 0 (coord_first n) (coord_step n) (fun i x m =>
    for_acc (Z.to_nat n) 0 (coord_first n) (coord_step n) (fun j y m =>
      advect_matter_cell n vx vy rho rho0 dt i x j y m) m) m.

(** ** Global state, set_forces, do_one_simulation_step, init_simulation *)

Definition DIM : Z := 50.

Record state : Type := State
  { bufs : mem;          (* the arrays vx, vy, vx0, vy0, fx, fy, rho, rho0 *)
    plan_rc : Z;         (* grid size the plans were created for *)
    plan_cr : Z;
    dt : Q;
    visc : Q;
    frozen : Z;
    redisplays : nat     (* calls of glutPostRedisplay so far *) }.

Definition decay_rho : Q := 995 # 1000.
Definition decay_force : Q := 85 # 100.

(** The same two statements on IEEE binary64 values, FFTW's default
    [fftw_real]: [0.995 * rho] and [f *= 0.85]. *)
Definition decay_rho_binary64 (rho : float) : float := (0.995 * rho)%float.
Definition decay_force_binary64 (f : float) : float := (f * 0.85)%float.

(** fluids.c 217-224 *)
Definition set_forces (m : mem) : mem :=
  for_loop (Z.to_nat (DIM * DIM)) 0 1 (fun i m =>
    let m := store m Prho0 i (decay_rho * load m Prho i)%Q in
    let m := store m Pfx i (load m Pfx i * decay_force)%Q in
    let m := store m Pfy i (load m Pfy i * decay_force)%Q in
    let m := store m Pvx0 i (load m Pfx i) in
    store m Pvy0 i (load m Pfy i)) m.

(** [void do_one_simulation_step(void)] *)
Definition do_one_simulation_step (L : libs) (s : state) : state :=
  if Z.eqb (frozen s) 0 then
    let m := set_forces (bufs s) in
    let m := solve L (plan_rc s) (plan_cr s) DIM Pvx Pvy Pvx0 Pvy0 (visc s) (dt s) m in
    let m := diffuse_matter DIM Pvx Pvy Prho Prho0 (dt s) m in
    State m (plan_rc s) (plan_cr s) (dt s) (visc s) (frozen s) (S (redisplays s))
  else s.

(** [malloc] of [len] elements: the block holds whatever the heap held,
    given by [junk]. *)
Definition malloc (junk : nat -> Q) (len : Z) : list Q :=
  map junk (seq 0 (Z.to_nat len)).

(** The eight allocations of fluids.c 55-64. *)
Definition allocate (junk : ptr -> nat -> Q) (n : Z) : mem :=
  fun p =>
    match p with
    | Pvx | Pvy | Pvx0 | Pvy0 => malloc (junk p) (n * 2 * (Z.quot n 2 + 1))
    | Pfx | Pfy | Prho | Prho0 => malloc (junk p) (n * n)
    end.

(** fluids.c 68-69: the chained assignment stores right to left. *)
Definition zero_fill (n : Z) (m : mem) : mem :=
  for_loop (Z.to_nat (n * n)) 0 1 (fun i m =>
    let m := store m Prho0 i 0%Q in
    let m := store m Prho i 0%Q in
    let m := store m Pfy i 0%Q in
    let m := store m Pfx i 0%Q in
    let m := store m Pvy0 i 0%Q in
    let m := store m Pvx0 i 0%Q in
    let m := store m Pvy i 0%Q in
    store m Pvx i 0%Q) m.

(** [void init_simulation(int n)] *)
Definition init_simulation (junk : ptr -> nat -> Q) (n : Z) (s : state) : state :=
  State (zero_fill n (allocate junk n)) n n (dt s) (visc s) (frozen s) (redisplays s).

(** ** The advector as the specification words it

    Used only to compare with the code: floor and fractional part of the
    traced position, base and neighbour wrapped modulo [n], and the four
    weights [(1-s)(1-t)], [s(1-t)], [(1-s)t], [s*t] on the corners base,
    +x, +y, +x+y. *)



(** The same four weights about the cell and the offset the code
    arrives at: base [clamp p], offset [p - clamp p]. *)
Definition clamp_bilinear (n : Z) (a : list Q) (px py : Q) : Q :=
  let bi := clamp px in
  let bj := clamp py in
  let s := (px - inject_Z bi)%Q in
  let t := (py - inject_Z bj)%Q in
  let i0 := bi mod n in
  let i1 := (bi + 1) mod n in
  let j0 := bj mod n in
  let j1 := (bj + 1) mod n in
  ((1 - s) * (1 - t) * ld a (i0 + n * j0)
   + s * (1 - t) * ld a (i1 + n * j0)
   + (1 - s) * t * ld a (i0 + n * j1)
   + s * t * ld a (i1 + n * j1))%Q.

(** The value of the accumulator [x] after [k] increments [x += dx]. *)
Fixpoint acc (x dx : Q) (k : nat) : Q :=
  match k with
  | O => x
  | S k' => (acc x dx k' + dx)%Q
  end.

(** The coordinate [x] of column [i] in the advection loops. *)
Definition coord (n : Z) (i : Z) : Q :=
  acc (coord_first n) (coord_step n) (Z.to_nat i).

(** Sum over the real-space cells [i + stride*j], [0 <= i, j < n]. *)
Fixpoint sum_to (k : nat) (f : Z -> Q) : Q :=
  match k with
  | O => 0%Q
  | S k' => (sum_to k' f + f (Z.of_nat k'))%Q
  end.

Definition grid_sum (n stride : Z) (a : list Q) : Q :=
  sum_to (Z.to_nat n) (fun j => sum_to (Z.to_nat n) (fun i => ld a (i + stride * j))).

Definition grid_mean (n stride : Z) (a : list Q) : Q :=
  (grid_sum n stride a / inject_Z (n * n))%Q.

(** ** A transform pair for the 2 x 2 grid

    The discrete Fourier transform of a 2 x 2 real array has real
    coefficients [c(kx,ky) = sum a(i,j) (-1)^(kx*i+ky*j)]; in the padded
    layout (stride 4) the real part of [c(kx,ky)] is at [2*kx + 4*ky].  It
    instantiates [libs] where a concrete transform is needed. *)
Definition dft2_r2c (a : list Q) : list Q :=
  let a00 := ld a 0 in let a10 := ld a 1 in
  let a01 := ld a 4 in let a11 := ld a 5 in
  [ a00 + a10 + a01 + a11; 0; a00 - a10 + a01 - a11; 0;
    a00 + a10 - a01 - a11; 0; a00 - a10 - a01 + a11; 0 ]%Q.

Definition dft2_c2r (c : list Q) : list Q :=
  let c00 := ld c 0 in let c10 := ld c 2 in
  let c01 := ld c 4 in let c11 := ld c 6 in
  [ c00 + c10 + c01 + c11; c00 - c10 + c01 - c11; 0; 0;
    c00 + c10 - c01 - c11; c00 - c10 - c01 + c11; 0; 0 ]%Q.

(** With zero viscosity [exp(-r*dt*visc)] is [exp(0) = 1]. *)
Definition libs2 : libs :=
  Libs (fun _ => dft2_r2c) (fun _ => dft2_c2r) (fun _ => 1%Q).

Definition const_mem (len : nat) (c : Q) : mem := fun _ => replicate len c.

(** ** Loops by iteration number

    The counted form of the loops, used to reason about them: iteration
    [k] of [for_loop] runs the body at [i = di*k], iteration [k] of
    [for_acc] at [i = k] and [x = acc x0 dx k]. *)
Fixpoint iter_from {A : Type} (cnt k : nat) (f : nat -> A -> A) (s : A) : A :=
  match cnt with
  | O => s
  | S c => iter_from c (S k) f (f k s)
  end.

Definition sweep {A : Type} (na nb : nat) (body : nat -> nat -> A -> A) (s : A) : A :=
  iter_from na 0 (fun a s => iter_from nb 0 (fun b => body a b) s) s.

(** The iterations of a sweep that precede iteration [(a0, b0)]. *)
Definition before (a0 b0 a b : nat) : Prop := (a < a0 \/ (a = a0 /\ b < b0))%nat.

(** ** Example stores *)

(** Density 10 and force (0.2, 0.2) at every cell of the 50 x 50 grid. *)
Definition decay_mem : mem :=
  fun p =>
    match p with
    | Prho => replicate 2500 (10 # 1)
    | Pfx | Pfy => replicate 2500 (2 # 10)
    | Prho0 => replicate 2500 0%Q
    | _ => replicate 2600 0%Q
    end.

(** A heap in which every byte-pattern reads as 1. *)
Definition junk_ones : ptr -> nat -> Q := fun _ _ => 1%Q.

(** ** Vocabulary of the loop proofs *)

(** What holds of the store [m] reached just before iteration [(a0, b0)]
    of a sweep started in [m0], when iteration [(a, b)] owns the cells
    [own a b] and writes the values [val a b] there. *)
Definition sweep_inv_at (na nb : nat) (own : nat -> nat -> ptr -> nat -> Prop)
    (val : nat -> nat -> ptr -> nat -> mem -> Q) (m0 : mem)
    (a0 b0 : nat) (m : mem) : Prop :=
  (forall p, length (m p) = length (m0 p)) /\
  (forall p k, (forall a b, (a < na)%nat -> (b < nb)%nat -> before a0 b0 a b -> ~ own a b p k) ->
               m p !! k = m0 p !! k) /\
  (forall a b p k, (a < na)%nat -> (b < nb)%nat -> before a0 b0 a b -> own a b p k ->
                   (k < length (m0 p))%nat -> m p !! k = Some (val a b p k m0)).

(** The snapshot buffer a velocity component is resampled from. *)
Definition velocity_src (vx vx0 vy0 : ptr) (p : ptr) : ptr :=
  if decide (p = vx) then vx0 else vy0.

Definition set_forces_val (p : ptr) (k : nat) (m : mem) : Q :=
  match p with
  | Prho0 => decay_rho * default 0 (m Prho !! k)
  | Pfx | Pvx0 => match m Pfx !! k with Some v => v * decay_force | None => 0 end
  | Pfy | Pvy0 => match m Pfy !! k with Some v => v * decay_force | None => 0 end
  | _ => 0
  end%Q.

Definition set_forces_own (a : nat) (p : ptr) (k : nat) : Prop :=
  (p = Prho0 \/ p = Pfx \/ p = Pfy \/ p = Pvx0 \/ p = Pvy0) /\ k = a.


(** Cells and values of iteration [(a, b)] of the frequency loop: the bin
    [kx = a], row [b], real part at [2a + (n+2)b] and imaginary part next
    to it. *)
Definition project_own (n : Z) (vx0 vy0 : ptr) (a b : nat) (p : ptr) (k : nat) : Prop :=
  (p = vx0 \/ p = vy0) /\
  (k = Z.to_nat (2 * Z.of_nat a + (n + 2) * Z.of_nat b) \/
   k = Z.to_nat (2 * Z.of_nat a + 1 + (n + 2) * Z.of_nat b)).

Definition project_val (L : libs) (n : Z) (vx0 vy0 : ptr) (visc dt : Q)
    (a b : nat) (p : ptr) (k : nat) (m : mem) : Q :=
  let x := (half * inject_Z (2 * Z.of_nat a))%Q in
  let y := fold_freq n (Z.of_nat b) in
  let r := (x * x + y * y)%Q in
  if Qeq_bool r 0 then default 0%Q (m p !! k) else
  let f := lib_exp L (- r * dt * visc)%Q in
  let U := default 0%Q (m vx0 !! k) in
  let V := default 0%Q (m vy0 !! k) in
  if decide (p = vx0) then (f * ((1 - x * x / r) * U - x * y / r * V))%Q
  else (f * (- y * x / r * U + (1 - y * y / r) * V))%Q.

(** ** What is assumed of the transform pair

    For a plan of size [n], on the padded layout (stride [n+2]): the real
    part of the zero-frequency coefficient produced by the forward
    transform (slot 0) is the sum of the samples, and the samples produced
    by the inverse transform sum to [n*n] times the real part of the
    zero-frequency coefficient it was given (the pair is not normalised). *)
Definition transform_dc (L : libs) (n : Z) : Prop :=
  (forall buf, (ld (lib_r2c L n buf) 0 == grid_sum n (n + 2) buf)%Q) /\
  (forall buf, (grid_sum n (n + 2) (lib_c2r L n buf) == inject_Z (n * n) * ld buf 0)%Q).

(** A 2 x 2 example: velocities in the padded scratch buffers. *)
Definition grid2 : mem :=
  fun p =>
    match p with
    | Pvx => [0; 0; 0; 0; 0; 0; 0; 0]
    | Pvy => [0; 0; 0; 0; 0; 0; 0; 0]
    | Pvx0 => [1 # 2; -1 # 4; 7; 7; 3 # 1; 1 # 3; 7; 7]
    | Pvy0 => [1 # 5; 2 # 1; 7; 7; -1 # 1; 1 # 2; 7; 7]
    | Pfx | Pfy => [0; 0; 0; 0]
    | Prho => [0; 0; 0; 0]
    | Prho0 => [1; 2; 3; 4]
    end%Q.


(** The 50 x 50 grid at rest, with density [k + 1] in cell [k] of the
    scratch buffer. *)
Definition ramp50 : mem :=
  fun p =>
    match p with
    | Prho0 => map (fun k => inject_Z (Z.of_nat k + 1)) (seq 0 2500)
    | Pfx | Pfy | Prho => replicate 2500 0%Q
    | _ => replicate 2600 0%Q
    end.

(** [grid2] with a constant density scratch buffer. *)
Definition grid2_const : mem :=
  fun p =>
    match p with
    | Prho0 => [3 # 1; 3 # 1; 3 # 1; 3 # 1]
    | _ => grid2 p
    end.

(** A paused simulation and a running one over the same fields. *)
Definition paused_state : state := State decay_mem 50 50 (4 # 100) (1 # 1000) 1 0.
Definition running_state : state := State decay_mem 50 50 (4 # 100) (1 # 1000) 0 0.

(** ** Vocabulary for the remaining loops of [solve] *)

(** The element [a] of array [q], [0] outside the array. *)
Definition cur (m : mem) (q : ptr) (a : nat) : Q := default 0%Q (m q !! a).

(** What iteration [a] of the force loop (fluids.c 134-135) leaves in
    cell [a] of [p]. *)
Definition add_forces_val (vx vy vx0 vy0 : ptr) (dt : Q) (a : nat) (p : ptr) (m : mem) : Q :=
  if decide (p = vx) then (cur m vx a + dt * cur m vx0 a)%Q
  else if decide (p = vy) then (cur m vy a + dt * cur m vy0 a)%Q
  else if decide (p = vx0) then
    match m vx !! a with Some v => (v + dt * cur m vx0 a)%Q | None => 0%Q end
  else
    match m vy !! a with Some v => (v + dt * cur m vy0 a)%Q | None => 0%Q end.

Definition velocity_cells (vx vy vx0 vy0 : ptr) (a : nat) (p : ptr) (k : nat) : Prop :=
  (p = vx \/ p = vy \/ p = vx0 \/ p = vy0) /\ k = a.

(** The buffer a padded scratch component is copied from (fluids.c 154). *)
Definition pad_src (vx vy vx0 : ptr) (p : ptr) : ptr :=
  if decide (p = vx0) then vx else vy.

(** [k] running steps. *)
Definition run (L : libs) (k : nat) (s : state) : state :=
  Nat.iter k (do_one_simulation_step L) s.

(** The damping factor [f] of the bin [(kx, j)] (fluids.c 161-167). *)
Definition bin_damping (L : libs) (n : Z) (visc dt : Q) (kx j : Z) : Q :=
  let x := (half * inject_Z (2 * kx))%Q in
  let y := fold_freq n j in
  let r := (x * x + y * y)%Q in
  lib_exp L (- r * dt * visc)%Q.

(** ** Visualization helpers *)

(** [int rotational_increment(int x, int max)] *)
Definition rotational_increment (x max : Z) : Z :=
  if Z.leb max (x + 1) then 0 else x + 1.

(** [double BilinearInterpolation(q11, q12, q21, q22, x1, x2, y1, y2, x, y)] *)
Definition BilinearInterpolation (q11 q12 q21 q22 x1 x2 y1 y2 x y : Q) : Q :=
  let x2x1 := (x2 - x1)%Q in
  let y2y1 := (y2 - y1)%Q in
  let x2x := (x2 - x)%Q in
  let y2y := (y2 - y)%Q in
  let yy1 := (y - y1)%Q in
  let xx1 := (x - x1)%Q in
  (1 / (x2x1 * y2y1)
   * (q11 * x2x * y2y + q21 * xx1 * y2y + q12 * x2x * yy1 + q22 * xx1 * yy1))%Q.

(** A colour: the three floats written through [r], [g], [b] (or passed to
    [glColor3f]). *)
Definition rgb : Type := (Q * Q * Q)%type.

(** [void hsv2rgb(float *r, float *g, float *b, fftw_real h, float s, float v)]:
    [c] is what [*r, *g, *b] held before the call; a hue case outside
    [0..6] leaves it. *)
Definition hsv2rgb (c : rgb) (h s v : Q) : rgb :=
  let hueCase := Qtrunc (h * 6) in
  let frac := (6 * h - inject_Z hueCase)%Q in
  let lx := (v * (1 - s))%Q in
  let ly := (v * (1 - s * frac))%Q in
  let lz := (v * (1 - s * (1 - frac)))%Q in
  match hueCase with
  | 0 | 6 => (v, lz, lx)
  | 1 => (ly, v, lx)
  | 2 => (lx, v, lz)
  | 3 => (lx, ly, v)
  | 4 => (lz, lx, v)
  | 5 => (v, lx, ly)
  | _ => c
  end.

(** [rainbow] calls [max], which fluids.c does not define (it comes from a
    system header): it is a parameter, of which only this is assumed. *)
Definition is_max (max_ : Q -> Q -> Q) : Prop :=
  forall a b : Q,
    (a <= max_ a b)%Q /\ (b <= max_ a b)%Q /\ ((max_ a b == a)%Q \/ (max_ a b == b)%Q).

(** The usual macro, [((a) > (b)) ? (a) : (b)]. *)
Definition cmax (a b : Q) : Q := if Qle_bool a b then b else a.

(** [void rainbow(float value, float* R, float* G, float* B)] *)
Definition rainbow (max_ : Q -> Q -> Q) (value : Q) : rgb :=
  let dx := (8 # 10)%Q in
  let value := if Qle_bool 0 value then value else 0%Q in
  let value := if Qle_bool value 1 then value else 1%Q in
  let value := ((6 - 2 * dx) * value + dx)%Q in
  (max_ 0 ((3 - Qabs (value - 4) - Qabs (value - 5)) / 2),
   max_ 0 ((4 - Qabs (value - 2) - Qabs (value - 4)) / 2),
   max_ 0 ((3 - Qabs (value - 1) - Qabs (value - 2)) / 2))%Q.

Definition COLOR_BLACKWHITE : Z := 0.
Definition COLOR_RAINBOW : Z := 1.
Definition COLOR_BANDS : Z := 2.

(** [void set_colormap(float vy)]: the colour handed to [glColor3f];
    [c] is what the uninitialised locals [R], [G], [B] hold. *)
Definition set_colormap (max_ : Q -> Q -> Q) (c : rgb) (scalar_col : Z) (vy : Q) : rgb :=
  if Z.eqb scalar_col COLOR_BLACKWHITE then (vy, vy, vy)
  else if Z.eqb scalar_col COLOR_RAINBOW then rainbow max_ vy
  else if Z.eqb scalar_col COLOR_BANDS then
    let NLEVELS := 7 in
    let vy := (vy * inject_Z NLEVELS)%Q in
    let vy := inject_Z (Qtrunc vy) in
    let vy := (vy / inject_Z NLEVELS)%Q in
    rainbow max_ vy
  else c.

(** [void scalar_to_color(float x, float y, int method)]: the colour
    handed to [glColor3f]; [atan2_] is libm's [atan2], [c] what the
    uninitialised locals [r], [g], [b] hold, [*rho] the first density
    cell. *)
Definition scalar_to_color (atan2_ : Q -> Q -> Q) (c : rgb) (m : mem)
    (x y : Q) (method : Z) : rgb :=
  if Z.eqb method 0 then (1, 1, 1)%Q
  else if Z.eqb method 1 then
    let f := (atan2_ y x / (31415927 # 10000000) + 1)%Q in
    let r := f in
    let r := if Qle_bool r 1 then r else (2 - r)%Q in
    let g := (f + (66667 # 100000))%Q in
    let g := if Qle_bool g 2 then g else (g - 2)%Q in
    let g := if Qle_bool g 1 then g else (2 - g)%Q in
    let b := (f + 2 * (66667 # 100000))%Q in
    let b := if Qle_bool b 2 then b else (b - 2)%Q in
    let b := if Qle_bool b 1 then b else (2 - b)%Q in
    (r, g, b)
  else if Z.eqb method 2 then hsv2rgb c (load m Prho 0) 1 1
  else if Z.eqb method 3 then
    let '(_, _, _) := hsv2rgb c (load m Prho 0) 1 1 in (1, 0, 0)%Q
  else c.

(** fluids.c 373-416: the vector drawn at glyph [(i, j)] of [visualize],
    sampled from the field [(vvx, vvy)]. *)
Definition sample_vector (vvx vvy : list Q) (vector_dim_x vector_dim_y : Z) (i j : Z) : Q * Q :=
  let step_x := (inject_Z DIM / inject_Z vector_dim_x)%Q in
  let step_y := (inject_Z DIM / inject_Z vector_dim_y)%Q in
  let floor_x := Qfloor (step_x * inject_Z i) in
  let ceil_x := Qceiling (step_x * inject_Z i) in
  let floor_y := Qfloor (step_y * inject_Z j) in
  let ceil_y := Qceiling (step_y * inject_Z j) in
  let vectorX :=
    BilinearInterpolation
      (ld vvx (ceil_y * DIM + ceil_x))
      (ld vvx (floor_y * DIM + ceil_x))
      (ld vvx (ceil_y * DIM + floor_x))
      (ld vvx (floor_y * DIM + floor_x))
      (inject_Z floor_x) (inject_Z ceil_x) (inject_Z floor_y) (inject_Z ceil_y)
      (step_x * inject_Z i) (step_y * inject_Z j) in
  let vectorY :=
    BilinearInterpolation
      (ld vvy (floor_y * DIM + floor_x))
      (ld vvy (ceil_y * DIM + floor_x))
      (ld vvy (floor_y * DIM + ceil_x))
      (ld vvy (ceil_y * DIM + ceil_x))
      (inject_Z floor_x) (inject_Z ceil_x) (inject_Z floor_y) (inject_Z ceil_y)
      (step_x * inject_Z i) (step_y * inject_Z j) in
  if Qeq_bool (inject_Z (Qfloor (step_x * inject_Z i))) (step_x * inject_Z i)
     || Qeq_bool (inject_Z (Qfloor (step_y * inject_Z j))) (step_y * inject_Z j)
  then
    let idx := Qtrunc (step_y * inject_Z j * inject_Z DIM + step_x * inject_Z i) in
    (ld vvx idx, ld vvy idx)
  else (vectorX, vectorY).

(** The array subscripts evaluated while sampling glyph [(i, j)]: the four
    corners (read for both components, whether or not the result is used)
    and the direct index. *)
Definition sample_reads (vector_dim_x vector_dim_y : Z) (i j : Z) : list Z :=
  let step_x := (inject_Z DIM / inject_Z vector_dim_x)%Q in
  let step_y := (inject_Z DIM / inject_Z vector_dim_y)%Q in
  let floor_x := Qfloor (step_x * inject_Z i) in
  let ceil_x := Qceiling (step_x * inject_Z i) in
  let floor_y := Qfloor (step_y * inject_Z j) in
  let ceil_y := Qceiling (step_y * inject_Z j) in
  [ceil_y * DIM + ceil_x; floor_y * DIM + ceil_x;
   ceil_y * DIM + floor_x; floor_y * DIM + floor_x] ++
  (if Qeq_bool (inject_Z (Qfloor (step_x * inject_Z i))) (step_x * inject_Z i)
      || Qeq_bool (inject_Z (Qfloor (step_y * inject_Z j))) (step_y * inject_Z j)
   then [Qtrunc (step_y * inject_Z j * inject_Z DIM + step_x * inject_Z i)]
   else []).

(** ** Interaction *)

(** The visualization parameters (fluids.c 29-42). *)
Record view : Type := View
  { vector_dim_x : Z; vector_dim_y : Z;
    winWidth : Z; winHeight : Z;
    vector_type : Z; scalar_type : Z; color_dir : Z;
    vec_scale : Q;
    draw_smoke : Z; draw_vecs : Z;
    scalar_col : Z }.

(** What [printf] wrote: the format and its integer argument. *)
Definition printed : Type := (string * Z)%type.

(** The whole program state: simulation, visualization parameters, the
    static [lmx], [lmy] of [drag], the output so far, and whether
    [exit(0)] was called. *)
Record app : Type := App
  { sim : state; ui : view; lmx : Z; lmy : Z;
    output : list printed; exited : bool }.

Definition with_sim (a : app) (s : state) : app :=
  App s (ui a) (lmx a) (lmy a) (output a) (exited a).
Definition with_ui (a : app) (v : view) : app :=
  App (sim a) v (lmx a) (lmy a) (output a) (exited a).

(** [void keyboard(unsigned char key, int x, int y)] *)
Definition keyboard (key : ascii) (x y : Z) (a : app) : app :=
  let s := sim a in
  let v := ui a in
  if Ascii.eqb key "t" then
    with_sim a (State (bufs s) (plan_rc s) (plan_cr s) (dt s - (1 # 1000)) (visc s)
                  (frozen s) (redisplays s))
  else if Ascii.eqb key "T" then
    with_sim a (State (bufs s) (plan_rc s) (plan_cr s) (dt s + (1 # 1000)) (visc s)
                  (frozen s) (redisplays s))
  else if Ascii.eqb key "c" then
    let st := rotational_increment (scalar_type v) 4 in
    App s (View (vector_dim_x v) (vector_dim_y v) (winWidth v) (winHeight v)
             (vector_type v) st (color_dir v) (vec_scale v)
             (draw_smoke v) (draw_vecs v) (scalar_col v))
      (lmx a) (lmy a)
      (output a ++ [("Scalar color type set to: %d \n"%string, st)]) (exited a)
  else if Ascii.eqb key "S" then
    with_ui a (View (vector_dim_x v) (vector_dim_y v) (winWidth v) (winHeight v)
                 (vector_type v) (scalar_type v) (color_dir v) (vec_scale v * (12 # 10))
                 (draw_smoke v) (draw_vecs v) (scalar_col v))
  else if Ascii.eqb key "s" then
    with_ui a (View (vector_dim_x v) (vector_dim_y v) (winWidth v) (winHeight v)
                 (vector_type v) (scalar_type v) (color_dir v) (vec_scale v * (8 # 10))
                 (draw_smoke v) (draw_vecs v) (scalar_col v))
  else if Ascii.eqb key "V" then
    with_sim a (State (bufs s) (plan_rc s) (plan_cr s) (dt s) (visc s * 5)
                  (frozen s) (redisplays s))
  else if Ascii.eqb key "v" then
    with_sim a (State (bufs s) (plan_rc s) (plan_cr s) (dt s) (visc s * (2 # 10))
                  (frozen s) (redisplays s))
  else if Ascii.eqb key "x" then
    let ds := 1 - draw_smoke v in
    let dv := if Z.eqb ds 0 then 1 else draw_vecs v in
    with_ui a (View (vector_dim_x v) (vector_dim_y v) (winWidth v) (winHeight v)
                 (vector_type v) (scalar_type v) (color_dir v) (vec_scale v)
                 ds dv (scalar_col v))
  else if Ascii.eqb key "y" then
    let dv := 1 - draw_vecs v in
    let ds := if Z.eqb dv 0 then 1 else draw_smoke v in
    with_ui a (View (vector_dim_x v) (vector_dim_y v) (winWidth v) (winHeight v)
                 (vector_type v) (scalar_type v) (color_dir v) (vec_scale v)
                 ds dv (scalar_col v))
  else if Ascii.eqb key "m" then
    let sc := scalar_col v + 1 in
    let sc := if Z.ltb COLOR_BANDS sc then COLOR_BLACKWHITE else sc in
    with_ui a (View (vector_dim_x v) (vector_dim_y v) (winWidth v) (winHeight v)
                 (vector_type v) (scalar_type v) (color_dir v) (vec_scale v)
                 (draw_smoke v) (draw_vecs v) sc)
  else if Ascii.eqb key "a" then
    with_sim a (State (bufs s) (plan_rc s) (plan_cr s) (dt s) (visc s)
                  (1 - frozen s) (redisplays s))
  else if Ascii.eqb key "G" then
    let vt := rotational_increment (vector_type v) 2 in
    App s (View (vector_dim_x v) (vector_dim_y v) (winWidth v) (winHeight v)
             vt (scalar_type v) (color_dir v) (vec_scale v)
             (draw_smoke v) (draw_vecs v) (scalar_col v))
      (lmx a) (lmy a)
      (output a ++ [("Vector type set to: %d \n"%string, vt)]) (exited a)
  else if Ascii.eqb key "o" then
    with_ui a (View (vector_dim_x v + 1) (vector_dim_y v) (winWidth v) (winHeight v)
                 (vector_type v) (scalar_type v) (color_dir v) (vec_scale v)
                 (draw_smoke v) (draw_vecs v) (scalar_col v))
  else if Ascii.eqb key "O" then
    with_ui a (View (vector_dim_x v - 1) (vector_dim_y v) (winWidth v) (winHeight v)
                 (vector_type v) (scalar_type v) (color_dir v) (vec_scale v)
                 (draw_smoke v) (draw_vecs v) (scalar_col v))
  else if Ascii.eqb key "p" then
    with_ui a (View (vector_dim_x v) (vector_dim_y v + 1) (winWidth v) (winHeight v)
                 (vector_type v) (scalar_type v) (color_dir v) (vec_scale v)
                 (draw_smoke v) (draw_vecs v) (scalar_col v))
  else if Ascii.eqb key "P" then
    with_ui a (View (vector_dim_x v) (vector_dim_y v - 1) (winWidth v) (winHeight v)
                 (vector_type v) (scalar_type v) (color_dir v) (vec_scale v)
                 (draw_smoke v) (draw_vecs v) (scalar_col v))
  else if Ascii.eqb key "q" then
    App s v (lmx a) (lmy a) (output a) true
  else a.

(** The idle callback on the whole program state. *)
Definition idle (L : libs) (a : app) : app :=
  with_sim a (do_one_simulation_step L (sim a)).

(** [void drag(int mx, int my)]; [sqrt_] is libm's [sqrt]. *)
Definition drag_cell (v : view) (mx my : Z) : Z :=
  let xi := clamp (inject_Z (DIM + 1) * (inject_Z mx / inject_Z (winWidth v)))%Q in
  let yi := clamp (inject_Z (DIM + 1)
                   * (inject_Z (winHeight v - my) / inject_Z (winHeight v)))%Q in
  let X := xi in
  let Y := yi in
  let X := if Z.ltb (DIM - 1) X then DIM - 1 else X in
  let Y := if Z.ltb (DIM - 1) Y then DIM - 1 else Y in
  let X := if Z.ltb X 0 then 0 else X in
  let Y := if Z.ltb Y 0 then 0 else Y in
  Y * DIM + X.

Definition drag_force (sqrt_ : Q -> Q) (a : app) (mx my : Z) : Q * Q :=
  let my := winHeight (ui a) - my in
  let dx := inject_Z (mx - lmx a) in
  let dy := inject_Z (my - lmy a) in
  let len := sqrt_ (dx * dx + dy * dy)%Q in
  if Qeq_bool len 0 then (dx, dy)
  else (dx * ((1 # 10) / len), dy * ((1 # 10) / len))%Q.

Definition drag (sqrt_ : Q -> Q) (mx my : Z) (a : app) : app :=
  let s := sim a in
  let c := drag_cell (ui a) mx my in
  let '(dx, dy) := drag_force sqrt_ a mx my in
  let m := bufs s in
  let m := store m Pfx c (load m Pfx c + dx)%Q in
  let m := store m Pfy c (load m Pfy c + dy)%Q in
  let m := store m Prho c (10 # 1) in
  App (State m (plan_rc s) (plan_cr s) (dt s) (visc s) (frozen s) (redisplays s))
    (ui a) mx (winHeight (ui a) - my) (output a) (exited a).

(** The mode flags the keys maintain. *)
Definition modes_ok (v : view) : Prop :=
  0 <= scalar_col v <= 2 /\ 0 <= scalar_type v < 4 /\ 0 <= vector_type v < 2 /\
  (draw_smoke v = 0 \/ draw_smoke v = 1) /\ (draw_vecs v = 0 \/ draw_vecs v = 1) /\
  ~ (draw_smoke v = 0 /\ draw_vecs v = 0).

(** An example program state: the parameters with their initial values
    (fluids.c 18-42), a 900 x 900 window, the fields of [running_state]. *)
Definition example_view : view := View 50 50 900 900 0 0 0 (1000 # 1) 0 1 0.
Definition example_app : app := App running_state example_view 0 0 [] false.

(** A square root that knows [25]. *)
Definition sqrt25 (q : Q) : Q := if Qeq_bool q (25 # 1) then 5 # 1 else 0.

(** * Properties *)

(** ** Truncation *)

Lemma Qtrunc_nonneg (x : Q) : (0 <= x)%Q -> Qtrunc x = Qfloor x.
Proof.
  destruct x as [a d]. unfold Qle, Qtrunc, Qfloor. simpl. intros H.
  apply Z.quot_div_nonneg; lia.
Qed.

Lemma Qfloor_bounds (x : Q) :
  (inject_Z (Qfloor x) <= x /\ x < inject_Z (Qfloor x) + 1)%Q.
Proof.
  split; [apply Qfloor_le |].
  generalize (Qlt_floor x). rewrite inject_Z_plus. auto.
Qed.

Lemma Qfloor_unique (x : Q) (k : Z) :
  (inject_Z k <= x)%Q -> (x < inject_Z k + 1)%Q -> Qfloor x = k.
Proof.
  intros H1 H2. destruct (Qfloor_bounds x) as [F1 F2].
  assert (A : (inject_Z k < inject_Z (Qfloor x) + 1)%Q) by lra.
  assert (B : (inject_Z (Qfloor x) < inject_Z k + 1)%Q) by lra.
  change 1%Q with (inject_Z 1) in A, B.
  rewrite <- inject_Z_plus in A, B. rewrite <- Zlt_Qlt in A, B. lia.
Qed.

(** ** Rounding to binary32 *)

Lemma pow2_pos (e : Z) : (0 < pow2 e)%Q.
Proof. apply Qpower_0_lt. reflexivity. Qed.

Lemma pow2_plus (a b : Z) : (pow2 (a + b) == pow2 a * pow2 b)%Q.
Proof. apply Qpower_plus. discriminate. Qed.

Lemma pow2_le (a b : Z) : a <= b -> (pow2 a <= pow2 b)%Q.
Proof. intros H. apply Qpower_le_compat_l; [exact H | discriminate]. Qed.

Lemma pow2_inject (k : Z) : 0 <= k -> (pow2 k == inject_Z (2 ^ k))%Q.
Proof. intros H. unfold pow2. rewrite Zpower_Qpower by exact H. reflexivity. Qed.

Lemma Qabs_num_den (x : Q) :
  (Qabs x * inject_Z (Zpos (Qden x)) == inject_Z (Z.abs (Qnum x)))%Q.
Proof.
  destruct x as [a d]. unfold Qabs, Qeq, Qmult, inject_Z. simpl. lia.
Qed.

(** [2 ^ ilog2 x <= |x|] *)
Lemma ilog2_le (x : Q) : ~ (x == 0)%Q -> (pow2 (ilog2 x) <= Qabs x)%Q.
Proof.
  intros Hx. unfold ilog2.
  set (a := Z.abs (Qnum x)). set (b := Zpos (Qden x)).
  destruct (Qle_bool (pow2 (Z.log2 a - Z.log2 b)) (Qabs x)) eqn:E.
  - now apply Qle_bool_iff.
  - assert (Ha : 0 < a).
    { subst a. destruct x as [[| p | p] d]; try reflexivity.
      exfalso. apply Hx. reflexivity. }
    destruct (Z.log2_spec a Ha) as [A1 _].
    destruct (Z.log2_spec b eq_refl) as [_ B2].
    pose proof (Z.log2_nonneg a) as La. pose proof (Z.log2_nonneg b) as Lb.
    pose proof (Qabs_num_den x) as Q1. fold a b in Q1.
    pose proof (Qabs_nonneg x) as Q0.
    pose proof (pow2_pos (Z.log2 b + 1)) as P1.
    pose proof (pow2_plus (Z.log2 a - Z.log2 b - 1) (Z.log2 b + 1)) as P2.
    replace (Z.log2 a - Z.log2 b - 1 + (Z.log2 b + 1)) with (Z.log2 a) in P2 by lia.
    rewrite (pow2_inject (Z.log2 a)) in P2 by lia.
    assert (B3 : (inject_Z b <= pow2 (Z.log2 b + 1))%Q).
    { rewrite pow2_inject by lia. rewrite <- Zle_Qle.
      change (Z.succ (Z.log2 b)) with (Z.log2 b + 1) in B2. lia. }
    assert (A3 : (inject_Z (2 ^ Z.log2 a) <= inject_Z a)%Q) by (rewrite <- Zle_Qle; lia).
    apply Qmult_le_r with (z := pow2 (Z.log2 b + 1)); [exact P1 |].
    rewrite <- P2.
    apply Qle_trans with (1 := A3). rewrite <- Q1.
    generalize dependent (Qabs x). generalize dependent (pow2 (Z.log2 b + 1)).
    generalize (inject_Z b). intros; nra.
Qed.



Lemma round_even_Z (q : Q) (k : Z) : (q == inject_Z k)%Q -> round_even q = k.
Proof.
  intros E. unfold round_even.
  assert (F : Qfloor q = k) by (rewrite E; apply Qfloor_Z).
  rewrite F.
  assert (L : (q - inject_Z k ?= 1 # 2)%Q = Lt).
  { apply (proj1 (Qlt_alt _ _)). rewrite E. lra. }
  now rewrite L.
Qed.



(** [|x| < 2 ^ (ilog2 x + 1)] *)
Lemma ilog2_lt (x : Q) : ~ (x == 0)%Q -> (Qabs x < pow2 (ilog2 x + 1))%Q.
Proof.
  intros Hx. unfold ilog2.
  set (a := Z.abs (Qnum x)). set (b := Zpos (Qden x)).
  destruct (Qle_bool (pow2 (Z.log2 a - Z.log2 b)) (Qabs x)) eqn:E.
  - assert (Ha : 0 < a).
    { subst a. destruct x as [[| p | p] d]; try reflexivity.
      exfalso. apply Hx. reflexivity. }
    destruct (Z.log2_spec a Ha) as [_ A2].
    destruct (Z.log2_spec b eq_refl) as [B1 _].
    pose proof (Z.log2_nonneg a) as La. pose proof (Z.log2_nonneg b) as Lb.
    pose proof (Qabs_num_den x) as Q1. fold a b in Q1.
    pose proof (pow2_pos (Z.log2 b)) as P1.
    pose proof (pow2_plus (Z.log2 a - Z.log2 b + 1) (Z.log2 b)) as P2.
    replace (Z.log2 a - Z.log2 b + 1 + Z.log2 b) with (Z.log2 a + 1) in P2 by lia.
    rewrite (pow2_inject (Z.log2 a + 1)) in P2 by lia.
    assert (B3 : (pow2 (Z.log2 b) <= inject_Z b)%Q).
    { rewrite pow2_inject by lia. rewrite <- Zle_Qle. lia. }
    assert (A3 : (inject_Z a < inject_Z (2 ^ (Z.log2 a + 1)))%Q).
    { rewrite <- Zlt_Qlt. change (Z.succ (Z.log2 a)) with (Z.log2 a + 1) in A2. lia. }
    pose proof (pow2_pos (Z.log2 a - Z.log2 b + 1)) as P3.
    apply Qmult_lt_r with (z := inject_Z b); [lra |].
    rewrite Q1. apply Qlt_le_trans with (1 := A3). rewrite P2.
    generalize dependent (pow2 (Z.log2 a - Z.log2 b + 1)).
    generalize dependent (pow2 (Z.log2 b)). generalize (inject_Z b).
    intros; nra.
  - replace (Z.log2 a - Z.log2 b - 1 + 1) with (Z.log2 a - Z.log2 b) by lia.
    apply Qnot_le_lt. intros H. apply Qle_bool_iff in H. congruence.
Qed.



(** Integers below [2^24] in magnitude are binary32 values. *)
Lemma f32_Z (x : Q) (k : Z) :
  (x == inject_Z k)%Q -> Z.abs k < 2 ^ 24 -> (f32 x == inject_Z k)%Q.
Proof.
  intros E B. unfold f32. destruct (Qeq_bool x 0) eqn:Z0.
  - apply Qeq_bool_iff in Z0. rewrite <- E, Z0. reflexivity.
  - assert (Hx : ~ (x == 0)%Q).
    { intros H. apply Qeq_bool_iff in H. congruence. }
    cbv zeta. set (e := Z.max (ilog2 x - 23) (-149)).
    pose proof (ilog2_le x Hx) as L.
    assert (A : (Qabs x < pow2 24)%Q).
    { rewrite E. change (Qabs (inject_Z k)) with (inject_Z (Z.abs k)).
      rewrite pow2_inject by lia. rewrite <- Zlt_Qlt. exact B. }
    assert (G : ilog2 x < 24).
    { apply Qpower_lt_compat_l_inv with (q := 2 # 1); [| reflexivity].
      fold (pow2 (ilog2 x)) (pow2 24). lra. }
    assert (He : e <= 0) by lia.
    pose proof (pow2_pos e) as P.
    pose proof (pow2_plus e (- e)) as P2. rewrite Z.add_opp_diag_r in P2.
    change (pow2 0) with 1%Q in P2.
    rewrite (pow2_inject (- e)) in P2 by lia.
    assert (Q1 : (x / pow2 e == inject_Z (k * 2 ^ (- e)))%Q).
    { rewrite inject_Z_mult, E.
      apply (Qmult_inj_r _ _ (pow2 e)); [lra |].
      generalize dependent (inject_Z (2 ^ (- e))). intros t P2.
      transitivity (inject_Z k * (pow2 e * t))%Q; [rewrite <- P2; field; lra | ring]. }
    rewrite (round_even_Z _ _ Q1), inject_Z_mult.
    generalize dependent (inject_Z (2 ^ (- e))). intros t P2.
    transitivity (inject_Z k * (pow2 e * t))%Q; [ring | rewrite <- P2; ring].
Qed.


Lemma ilog2_unique (x : Q) (k : Z) :
  (pow2 k <= Qabs x)%Q -> (Qabs x < pow2 (k + 1))%Q -> ilog2 x = k.
Proof.
  intros L U.
  assert (Hx : ~ (x == 0)%Q).
  { intros E. rewrite E in L. change (Qabs 0) with 0%Q in L.
    pose proof (pow2_pos k). lra. }
  pose proof (ilog2_le x Hx) as L'. pose proof (ilog2_lt x Hx) as U'.
  assert (A : k < ilog2 x + 1).
  { apply Qpower_lt_compat_l_inv with (q := 2 # 1); [| reflexivity].
    fold (pow2 k) (pow2 (ilog2 x + 1)). lra. }
  assert (B : ilog2 x < k + 1).
  { apply Qpower_lt_compat_l_inv with (q := 2 # 1); [| reflexivity].
    fold (pow2 (ilog2 x)) (pow2 (k + 1)). lra. }
  lia.
Qed.

#[global] Instance round_even_proper : Proper (Qeq ==> eq) round_even.
Proof.
  intros x y E. unfold round_even. rewrite <- (Qfloor_comp _ _ E).
  assert (D : (x - inject_Z (Qfloor x) == y - inject_Z (Qfloor x))%Q).
  { apply Qplus_comp; [exact E | reflexivity]. }
  now rewrite (Qcompare_comp _ _ D _ _ (Qeq_refl (1 # 2))).
Qed.

(** [f32] is a function of the rational, not of the fraction denoting it. *)
#[global] Instance f32_proper : Proper (Qeq ==> Qeq) f32.
Proof.
  intros x y E. unfold f32.
  destruct (Qeq_bool x 0) eqn:X, (Qeq_bool y 0) eqn:Y; try reflexivity.
  - apply Qeq_bool_iff in X. rewrite E in X. apply Qeq_bool_iff in X. congruence.
  - apply Qeq_bool_iff in Y. rewrite <- E in Y. apply Qeq_bool_iff in Y. congruence.
  - assert (Hy : ~ (y == 0)%Q).
    { intros H. apply Qeq_bool_iff in H. congruence. }
    assert (I : ilog2 x = ilog2 y).
    { apply ilog2_unique; rewrite E; [now apply ilog2_le | now apply ilog2_lt]. }
    cbv zeta. rewrite I.
    assert (R : (x / pow2 (Z.max (ilog2 y - 23) (-149))
                 == y / pow2 (Z.max (ilog2 y - 23) (-149)))%Q) by now rewrite E.
    now rewrite (round_even_proper _ _ R).
Qed.

Lemma ilog2_pow2 (e : Z) : ilog2 (pow2 e) = e.
Proof.
  pose proof (pow2_pos e) as P.
  apply ilog2_unique; rewrite Qabs_pos by lra.
  - apply Qle_refl.
  - apply Qpower_lt_compat_l; [lia | reflexivity].
Qed.

(** Powers of two in the normal range are binary32 values. *)
Lemma f32_pow2 (x : Q) (e : Z) :
  (x == pow2 e)%Q -> -126 <= e -> (f32 x == pow2 e)%Q.
Proof.
  intros E H. rewrite E. unfold f32.
  pose proof (pow2_pos e) as P. pose proof (pow2_pos (e - 23)) as P'.
  destruct (Qeq_bool (pow2 e) 0) eqn:Z0.
  - apply Qeq_bool_iff in Z0. lra.
  - cbv zeta. rewrite ilog2_pow2, Z.max_l by lia.
    pose proof (pow2_plus 23 (e - 23)) as S.
    replace (23 + (e - 23)) with e in S by lia.
    rewrite (pow2_inject 23) in S by lia.
    assert (Q1 : (pow2 e / pow2 (e - 23) == inject_Z (2 ^ 23))%Q).
    { rewrite S. field. lra. }
    rewrite (round_even_Z _ _ Q1). symmetry. exact S.
Qed.

(** ** [clamp] *)

Lemma clamp_nonneg (x : Q) : (0 <= f32 x)%Q -> clamp x = Qfloor (f32 x).
Proof.
  intros H. unfold clamp. cbv zeta.
  destruct (Qle_bool 0 (f32 x)) eqn:E.
  - now apply Qtrunc_nonneg.
  - apply Qle_bool_iff in H. congruence.
Qed.












Lemma clamp_Z_nonneg (x : Q) (k : Z) :
  (x == inject_Z k)%Q -> 0 <= k <= 2 ^ 23 -> clamp x = k.
Proof.
  intros E B. pose proof (f32_Z x k E ltac:(lia)) as F.
  rewrite clamp_nonneg.
  - rewrite F. apply Qfloor_Z.
  - rewrite F. change 0%Q with (inject_Z 0). rewrite <- Zle_Qle. lia.
Qed.


(** ** Wrapping *)

Lemma wrap_mod (n k : Z) : 0 < n -> wrap n k = k mod n.
Proof.
  intros Hn. unfold wrap.
  pose proof (Z.rem_bound_abs k n ltac:(lia)) as Hb.
  pose proof (Z.quot_rem' k n) as Hq.
  assert (H0 : 0 <= n + Z.rem k n) by lia.
  rewrite Z.rem_mod_nonneg by lia.
  transitivity (Z.rem k n mod n).
  - replace (n + Z.rem k n) with (Z.rem k n + 1 * n) by lia.
    apply Z_mod_plus_full.
  - assert (E : k mod n = (Z.rem k n + Z.quot k n * n) mod n) by (f_equal; lia).
    rewrite E. symmetry. apply Z_mod_plus_full.
Qed.

Lemma succ_wrap_mod (n k : Z) : 0 < n -> succ_wrap n (k mod n) = (k + 1) mod n.
Proof.
  intros Hn. unfold succ_wrap.
  pose proof (Z.mod_pos_bound k n Hn).
  rewrite Z.rem_mod_nonneg by lia.
  rewrite Zplus_mod_idemp_l. reflexivity.
Qed.

Lemma wrap_range (n k : Z) : 0 < n -> 0 <= wrap n k < n.
Proof. intros Hn. rewrite wrap_mod by assumption. now apply Z.mod_pos_bound. Qed.

Lemma succ_wrap_range (n k : Z) : 0 < n -> 0 <= k < n -> 0 <= succ_wrap n k < n.
Proof.
  intros Hn Hk. unfold succ_wrap. rewrite Z.rem_mod_nonneg by lia.
  now apply Z.mod_pos_bound.
Qed.

Lemma cell_index_range (n i j : Z) :
  0 <= i < n -> 0 <= j < n -> 0 <= i + n * j < n * n.
Proof. intros Hi Hj. nia. Qed.


Lemma backtrace_corners (n : Z) (x y dt u v : Q) :
  0 < n ->
  let b := backtrace n x y dt u v in
  0 <= tr_i0 b + n * tr_j0 b < n * n /\
  0 <= tr_i0 b + n * tr_j1 b < n * n /\
  0 <= tr_i1 b + n * tr_j0 b < n * n /\
  0 <= tr_i1 b + n * tr_j1 b < n * n.
Proof.
  intros Hn. simpl.
  set (a := clamp (back n x dt u)). set (c := clamp (back n y dt v)).
  pose proof (wrap_range n a Hn) as A0.
  pose proof (succ_wrap_range n _ Hn A0) as A1.
  pose proof (wrap_range n c Hn) as C0.
  pose proof (succ_wrap_range n _ Hn C0) as C1.
  repeat split; apply cell_index_range; lia.
Qed.

(** C10: every array access of the advection loops is in bounds -- for
    every base index [i0] (of either sign) and every grid size [n > 0] the
    wrapped index [(n+(i0%n))%n] and its neighbour [(.+1)%n] lie in
    [0, n-1], and the four corner indices computed by the backtrace
    address cells of the [n] x [n] buffer. *)
Theorem advection_indices_in_bounds (n i0 : Z) :
  0 < n ->
  0 <= wrap n i0 <= n - 1 /\
  0 <= succ_wrap n (wrap n i0) <= n - 1 /\
  forall x y dt u v : Q,
    let b := backtrace n x y dt u v in
    0 <= tr_i0 b + n * tr_j0 b < n * n /\
    0 <= tr_i0 b + n * tr_j1 b < n * n /\
    0 <= tr_i1 b + n * tr_j0 b < n * n /\
    0 <= tr_i1 b + n * tr_j1 b < n * n.
Proof.
  intros Hn.
  pose proof (wrap_range n i0 Hn) as W.
  pose proof (succ_wrap_range n _ Hn W) as W1.
  split; [lia |]. split; [lia |].
  intros x y dt u v. now apply backtrace_corners.
Qed.

Lemma advection_indices_in_bounds_witness :
  0 <= wrap 50 (-7) <= 49 /\ 0 <= succ_wrap 50 (wrap 50 (-7)) <= 49.
Proof.
  destruct (advection_indices_in_bounds 50 (-7) ltac:(lia)) as (H1 & H2 & _).
  split; [exact H1 | exact H2].
Defined.

(** With 32-bit [int]s none of the index computations overflows when
    [n * n] fits, so the unbounded integers of the model agree with the
    machine. *)
Lemma wrap_no_overflow (n i0 : Z) :
  0 < n <= 46340 -> int_range i0 ->
  int_range (Z.rem i0 n) /\ int_range (n + Z.rem i0 n) /\
  int_range (wrap n i0 + 1) /\
  forall j, 0 <= j < n -> int_range (n * j) /\ int_range (wrap n i0 + n * j).
Proof.
  unfold int_range. intros Hn Hi.
  pose proof (Z.rem_bound_abs i0 n ltac:(lia)) as Hb.
  pose proof (wrap_range n i0 ltac:(lia)) as W.
  repeat split; try lia; nia.
Qed.




(** ** Arrays and the store *)

Lemma st_length (l : list Q) (i : Z) (v : Q) : length (st l i v) = length l.
Proof. apply length_insert. Qed.

Lemma store_length (m : mem) (p q : ptr) (i : Z) (v : Q) :
  length (store m p i v q) = length (m q).
Proof.
  unfold store. destruct (decide (q = p)) as [-> | ?]; [apply st_length | reflexivity].
Qed.

Lemma store_lookup_ne (m : mem) (p q : ptr) (i : Z) (v : Q) (k : nat) :
  ~ (q = p /\ k = Z.to_nat i) -> store m p i v q !! k = m q !! k.
Proof.
  intros H. unfold store, st. destruct (decide (q = p)) as [-> | ?]; [| reflexivity].
  apply list_lookup_insert_ne. intros E. apply H. split; congruence.
Qed.

Lemma store_lookup_eq (m : mem) (p : ptr) (i : Z) (v : Q) :
  (Z.to_nat i < length (m p))%nat -> store m p i v p !! Z.to_nat i = Some v.
Proof.
  intros H. unfold store, st. destruct (decide (p = p)) as [_ | ?]; [| congruence].
  now apply list_lookup_insert_eq.
Qed.

Lemma store_other (m : mem) (p q : ptr) (i : Z) (v : Q) :
  q <> p -> store m p i v q = m q.
Proof. intros H. unfold store. destruct (decide (q = p)); congruence. Qed.

Lemma load_lookup (m : mem) (p : ptr) (i : Z) (v : Q) :
  m p !! Z.to_nat i = Some v -> load m p i = v.
Proof. unfold load, ld. now intros ->. Qed.

Lemma interp_ext (n : Z) (a a' : list Q) (b : trace) :
  (forall k, a !! k = a' !! k) -> interp n a b = interp n a' b.
Proof. intros H. now rewrite (list_eq a a' H). Qed.

(** ** Loops *)

Lemma for_loop_iter {A : Type} (cnt k : nat) (di : Z) (body : Z -> A -> A) (s : A) :
  for_loop cnt (di * Z.of_nat k) di body s
  = iter_from cnt k (fun t => body (di * Z.of_nat t)) s.
Proof.
  revert k s. induction cnt as [| c IH]; intros k s; [reflexivity |].
  simpl. rewrite <- IH. f_equal. lia.
Qed.

Lemma for_acc_iter {A : Type} (cnt k : nat) (x dx : Q) (body : Z -> Q -> A -> A) (s : A) :
  for_acc cnt (Z.of_nat k) (acc x dx k) dx body s
  = iter_from cnt k (fun t => body (Z.of_nat t) (acc x dx t)) s.
Proof.
  revert k s. induction cnt as [| c IH]; intros k s; [reflexivity |].
  simpl. rewrite <- IH. f_equal. lia.
Qed.

Lemma iter_from_ext {A : Type} (cnt k : nat) (f g : nat -> A -> A) (s : A) :
  (forall t s', (k <= t < k + cnt)%nat -> f t s' = g t s') ->
  iter_from cnt k f s = iter_from cnt k g s.
Proof.
  revert k s. induction cnt as [| c IH]; intros k s H; [reflexivity |].
  simpl. rewrite H by lia. apply IH. intros t s' Ht. apply H. lia.
Qed.

Lemma iter_from_inv {A : Type} (P : nat -> A -> Prop) (cnt k : nat)
    (f : nat -> A -> A) (s : A) :
  P k s ->
  (forall t s', (k <= t < k + cnt)%nat -> P t s' -> P (S t) (f t s')) ->
  P (k + cnt)%nat (iter_from cnt k f s).
Proof.
  revert k s. induction cnt as [| c IH]; intros k s H0 Hstep.
  - simpl. now rewrite Nat.add_0_r.
  - simpl. replace (k + S c)%nat with (S k + c)%nat by lia.
    apply IH.
    + apply Hstep; [lia | assumption].
    + intros t s' Ht. apply Hstep. lia.
Qed.

(** A loop over [i = 0 .. n-1] is a one-column sweep. *)
Lemma for_loop_sweep {A : Type} (cnt : nat) (di : Z) (body : Z -> A -> A) (s : A) :
  for_loop cnt 0 di body s = sweep cnt 1 (fun a _ => body (di * Z.of_nat a)) s.
Proof.
  unfold sweep. simpl. replace 0 with (di * Z.of_nat 0) by lia.
  apply for_loop_iter.
Qed.

Lemma for_loop2_sweep {A : Type} (na nb : nat) (di : Z) (body : Z -> Z -> A -> A) (s : A) :
  for_loop na 0 di (fun i s => for_loop nb 0 1 (fun j s => body i j s) s) s
  = sweep na nb (fun a b => body (di * Z.of_nat a) (Z.of_nat b)) s.
Proof.
  unfold sweep. replace 0 with (di * Z.of_nat 0) at 1 by lia.
  rewrite for_loop_iter. apply iter_from_ext. intros a s' _.
  replace 0 with (1 * Z.of_nat 0) by lia. rewrite for_loop_iter.
  apply iter_from_ext. intros b s'' _. f_equal. lia.
Qed.

Lemma for_acc2_sweep {A : Type} (na nb : nat) (x dx y dy : Q)
    (body : Z -> Q -> Z -> Q -> A -> A) (s : A) :
  for_acc na 0 x dx (fun i x s => for_acc nb 0 y dy (fun j y s => body i x j y s) s) s
  = sweep na nb (fun a b => body (Z.of_nat a) (acc x dx a) (Z.of_nat b) (acc y dy b)) s.
Proof.
  unfold sweep. change 0 with (Z.of_nat 0) at 1. change x with (acc x dx 0) at 1.
  rewrite for_acc_iter. apply iter_from_ext. intros a s' _.
  change 0 with (Z.of_nat 0). change y with (acc y dy 0) at 1.
  apply for_acc_iter.
Qed.

(** *** Sweeps that write each cell once

    Every iteration [(a, b)] owns a set of cells, writes the values [val]
    there and nothing elsewhere; no cell has two owners; the value written
    depends only on cells that no other iteration owns.  Then the sweep
    writes, at every owned cell, the value computed from the initial
    store. *)
Section sweep_cells.
Variables (na nb : nat) (body : nat -> nat -> mem -> mem).
Variable own : nat -> nat -> ptr -> nat -> Prop.
Variable val : nat -> nat -> ptr -> nat -> mem -> Q.

Hypothesis body_len : forall a b m p,
  (a < na)%nat -> (b < nb)%nat -> length (body a b m p) = length (m p).
Hypothesis body_frame : forall a b m p k,
  (a < na)%nat -> (b < nb)%nat -> ~ own a b p k -> body a b m p !! k = m p !! k.
Hypothesis body_val : forall a b m p k,
  (a < na)%nat -> (b < nb)%nat -> own a b p k -> (k < length (m p))%nat ->
  body a b m p !! k = Some (val a b p k m).
Hypothesis own_inj : forall a b a' b' p k,
  (a < na)%nat -> (b < nb)%nat -> (a' < na)%nat -> (b' < nb)%nat ->
  own a b p k -> own a' b' p k -> a = a' /\ b = b'.
Hypothesis val_stable : forall a b p k m m',
  (a < na)%nat -> (b < nb)%nat -> own a b p k ->
  (forall q k', (forall a' b', (a' < na)%nat -> (b' < nb)%nat ->
                                own a' b' q k' -> a' = a /\ b' = b) ->
                m q !! k' = m' q !! k') ->
  val a b p k m = val a b p k m'.

Variable m0 : mem.

Local Abbreviation Inv := (sweep_inv_at na nb own val m0).

Lemma sweep_step (a0 b0 : nat) (m : mem) :
  (a0 < na)%nat -> (b0 < nb)%nat -> Inv a0 b0 m -> Inv a0 (S b0) (body a0 b0 m).
Proof.
  intros Ha Hb (IL & IF & IV). split; [| split].
  - intros p. rewrite body_len by assumption. apply IL.
  - intros p k H. rewrite body_frame; [| assumption | assumption |].
    + apply IF. intros a b Ha' Hb' Hd. apply H; try assumption.
      unfold before in *. lia.
    + apply H; try assumption. unfold before. lia.
  - intros a b p k Ha' Hb' Hd Ho Hk.
    destruct (decide (a = a0 /\ b = b0)) as [[-> ->] | Hne].
    + rewrite (body_val a0 b0 m p k) by (rewrite ?IL; assumption).
      f_equal. apply val_stable; try assumption.
      intros q k' Hq. apply IF. intros a' b' Ha'' Hb'' Hd' Ho'.
      destruct (Hq a' b' Ha'' Hb'' Ho') as [-> ->].
      unfold before in Hd'. lia.
    + rewrite body_frame; [| assumption | assumption |].
      * apply IV; try assumption. unfold before in *. lia.
      * intros Ho'. apply Hne. apply (own_inj a b a0 b0 p k); assumption.
Qed.

Lemma sweep_inv : Inv na 0 (sweep na nb body m0).
Proof.
  unfold sweep.
  apply (iter_from_inv (fun a m => Inv a 0 m) na 0).
  - split; [| split]; try reflexivity.
    intros a b p k _ _ Hd. unfold before in Hd. lia.
  - intros a m [_ Ha] I. simpl in Ha.
    assert (I' : Inv a nb (iter_from nb 0 (fun b => body a b) m)).
    { apply (iter_from_inv (fun b m => Inv a b m) nb 0); [exact I |].
      intros b m' [_ Hb] I'. apply sweep_step; assumption. }
    destruct I' as (IL & IF & IV). split; [exact IL | split].
    + intros p k H. apply IF. intros a' b' Ha' Hb' Hd. apply H; try assumption.
      unfold before in *. lia.
    + intros a' b' p k Ha' Hb' Hd. apply IV; try assumption.
      unfold before in *. lia.
Qed.

Lemma sweep_length (p : ptr) : length (sweep na nb body m0 p) = length (m0 p).
Proof. apply sweep_inv. Qed.

Lemma sweep_frame (p : ptr) (k : nat) :
  (forall a b, (a < na)%nat -> (b < nb)%nat -> ~ own a b p k) ->
  sweep na nb body m0 p !! k = m0 p !! k.
Proof.
  intros H. destruct sweep_inv as (_ & IF & _). apply IF.
  intros a b Ha Hb _. now apply H.
Qed.

Lemma sweep_value (a b : nat) (p : ptr) (k : nat) :
  (a < na)%nat -> (b < nb)%nat -> own a b p k -> (k < length (m0 p))%nat ->
  sweep na nb body m0 p !! k = Some (val a b p k m0).
Proof.
  intros Ha Hb Ho Hk. destruct sweep_inv as (_ & _ & IV).
  apply IV; try assumption. unfold before. lia.
Qed.
End sweep_cells.

Lemma sweep_untouched (na nb : nat) (body : nat -> nat -> mem -> mem) (p : ptr) (m : mem) :
  (forall a b m', body a b m' p = m' p) -> sweep na nb body m p = m p.
Proof.
  intros H. unfold sweep.
  apply (iter_from_inv (fun _ m' => m' p = m p) na 0); [reflexivity |].
  intros a m1 _ E1. rewrite <- E1.
  apply (iter_from_inv (fun _ m' => m' p = m1 p) nb 0); [reflexivity |].
  intros b m2 _ E2. now rewrite H.
Qed.

Lemma cell_index_inj (n : Z) (a b a' b' : nat) :
  (a < Z.to_nat n)%nat -> (a' < Z.to_nat n)%nat ->
  Z.to_nat (Z.of_nat a + n * Z.of_nat b) = Z.to_nat (Z.of_nat a' + n * Z.of_nat b') ->
  a = a' /\ b = b'.
Proof.
  intros Ha Ha' E.
  assert (Hn : 0 < n) by lia.
  assert (E' : Z.of_nat a + n * Z.of_nat b = Z.of_nat a' + n * Z.of_nat b') by nia.
  assert (Z.of_nat b = Z.of_nat b') by nia.
  lia.
Qed.

(** ** The advection loops *)

Section advect_matter.
Variables (n : Z) (vx vy rho rho0 : ptr) (dt : Q).

Lemma diffuse_matter_sweep (m : mem) :
  diffuse_matter n vx vy rho rho0 dt m
  = sweep (Z.to_nat n) (Z.to_nat n)
      (fun a b => advect_matter_cell n vx vy rho rho0 dt
                    (Z.of_nat a) (acc (coord_first n) (coord_step n) a)
                    (Z.of_nat b) (acc (coord_first n) (coord_step n) b)) m.
Proof. unfold diffuse_matter. apply for_acc2_sweep. Qed.

(** Only [rho] is written. *)
Lemma diffuse_matter_frame (m : mem) (p : ptr) :
  p <> rho -> diffuse_matter n vx vy rho rho0 dt m p = m p.
Proof.
  intros Hp. rewrite diffuse_matter_sweep. apply sweep_untouched.
  intros a b m'. unfold advect_matter_cell. now apply store_other.
Qed.

Hypothesis rho_vx : rho <> vx.
Hypothesis rho_vy : rho <> vy.
Hypothesis rho_rho0 : rho <> rho0.

(** Cell [(i, j)] of [rho] receives the interpolation of [rho0] at the
    position traced from [(i, j)] through the velocity found there. *)
Lemma diffuse_matter_cell (m : mem) (i j : Z) :
  0 <= i < n -> 0 <= j < n -> (Z.to_nat (n * n) <= length (m rho))%nat ->
  load (diffuse_matter n vx vy rho rho0 dt m) rho (i + n * j)
  = interp n (m rho0)
      (backtrace n (coord n i) (coord n j) dt
         (load m vx (i + n * j)) (load m vy (i + n * j))).
Proof.
  intros Hi Hj Hlen. rewrite diffuse_matter_sweep.
  apply load_lookup.
  pose (own := fun (a b : nat) (p : ptr) (k : nat) =>
                 p = rho /\ k = Z.to_nat (Z.of_nat a + n * Z.of_nat b)).
  pose (val := fun (a b : nat) (p : ptr) (k : nat) (m : mem) =>
                 interp n (m rho0)
                   (backtrace n (acc (coord_first n) (coord_step n) a)
                      (acc (coord_first n) (coord_step n) b) dt
                      (load m vx (Z.of_nat a + n * Z.of_nat b))
                      (load m vy (Z.of_nat a + n * Z.of_nat b)))).
  rewrite (sweep_value _ _ _ own val) with (a := Z.to_nat i) (b := Z.to_nat j).
  - unfold val, coord. rewrite !Z2Nat.id by lia. reflexivity.
  - intros a b m' p _ _. apply store_length.
  - intros a b m' p k _ _ Ho. apply store_lookup_ne. exact Ho.
  - intros a b m' p k _ _ [-> ->] Hk. now apply store_lookup_eq.
  - intros a b a' b' p k Ha _ Ha' _ [_ ->] [_ E]. now apply (cell_index_inj n).
  - intros a b p k m1 m2 _ _ _ H. unfold val.
    assert (E : forall q, q <> rho -> m1 q = m2 q).
    { intros q Hq. apply list_eq. intros k'. apply H.
      intros a' b' _ _ [Hq' _]. congruence. }
    unfold load. rewrite !(E vx), !(E vy), !(E rho0) by congruence. reflexivity.
  - lia.
  - lia.
  - split; [reflexivity |]. rewrite !Z2Nat.id by lia. reflexivity.
  - pose proof (cell_index_range n i j Hi Hj). lia.
Qed.
End advect_matter.

Lemma distinct4 (a b c d : ptr) :
  NoDup [a; b; c; d] -> a <> b /\ a <> c /\ a <> d /\ b <> c /\ b <> d /\ c <> d.
Proof.
  rewrite !NoDup_cons, !not_elem_of_cons. intuition.
Qed.

Lemma velocity_ptrs_distinct : NoDup [Pvx; Pvy; Pvx0; Pvy0].
Proof.
  rewrite !NoDup_cons, !not_elem_of_cons.
  repeat split; try discriminate; try apply not_elem_of_nil. apply NoDup_nil_2.
Qed.

Section advect_velocity.
Variables (n : Z) (vx vy vx0 vy0 : ptr) (dt : Q).

Lemma advect_velocity_sweep (m : mem) :
  advect_velocity n vx vy vx0 vy0 dt m
  = sweep (Z.to_nat n) (Z.to_nat n)
      (fun a b => advect_velocity_cell n vx vy vx0 vy0 dt
                    (Z.of_nat a) (acc (coord_first n) (coord_step n) a)
                    (Z.of_nat b) (acc (coord_first n) (coord_step n) b)) m.
Proof. unfold advect_velocity. apply for_acc2_sweep. Qed.

(** Only [vx] and [vy] are written. *)
Lemma advect_velocity_frame (m : mem) (p : ptr) :
  p <> vx -> p <> vy -> advect_velocity n vx vy vx0 vy0 dt m p = m p.
Proof.
  intros Hx Hy. rewrite advect_velocity_sweep. apply sweep_untouched.
  intros a b m'. unfold advect_velocity_cell. now rewrite !store_other.
Qed.

Hypothesis distinct : NoDup [vx; vy; vx0; vy0].

Lemma advect_velocity_cell_value (m : mem) (p : ptr) (i j : Z) :
  p = vx \/ p = vy ->
  0 <= i < n -> 0 <= j < n -> (Z.to_nat (n * n) <= length (m p))%nat ->
  load (advect_velocity n vx vy vx0 vy0 dt m) p (i + n * j)
  = interp n (m (velocity_src vx vx0 vy0 p))
      (backtrace n (coord n i) (coord n j) dt
         (load m vx0 (i + n * j)) (load m vy0 (i + n * j))).
Proof.
  intros Hp Hi Hj Hlen. rewrite advect_velocity_sweep.
  assert (D : vx <> vy /\ vx <> vx0 /\ vx <> vy0 /\ vy <> vx0 /\ vy <> vy0 /\ vx0 <> vy0).
  { now apply distinct4. }
  destruct D as (D1 & D2 & D3 & D4 & D5 & D6).
  apply load_lookup.
  pose (own := fun (a b : nat) (p : ptr) (k : nat) =>
                 (p = vx \/ p = vy) /\ k = Z.to_nat (Z.of_nat a + n * Z.of_nat b)).
  pose (val := fun (a b : nat) (p : ptr) (k : nat) (m : mem) =>
                 interp n (m (velocity_src vx vx0 vy0 p))
                   (backtrace n (acc (coord_first n) (coord_step n) a)
                      (acc (coord_first n) (coord_step n) b) dt
                      (load m vx0 (Z.of_nat a + n * Z.of_nat b))
                      (load m vy0 (Z.of_nat a + n * Z.of_nat b)))).
  rewrite (sweep_value _ _ _ own val) with (a := Z.to_nat i) (b := Z.to_nat j).
  - unfold val, coord. rewrite !Z2Nat.id by lia. reflexivity.
  - intros a b m' q _ _. unfold advect_velocity_cell. now rewrite !store_length.
  - intros a b m' q k _ _ Ho. unfold advect_velocity_cell.
    rewrite !store_lookup_ne; [reflexivity | |]; intros [-> ->]; apply Ho; split; auto.
  - intros a b m' q k _ _ [Hq ->] Hk. unfold advect_velocity_cell, val, velocity_src.
    destruct Hq as [-> | ->].
    + rewrite store_lookup_ne by (intros [? _]; congruence).
      rewrite store_lookup_eq by assumption.
      destruct (decide (vx = vx)); congruence.
    + rewrite store_lookup_eq by (rewrite store_length; assumption).
      rewrite (store_other _ vx vy0) by congruence.
      destruct (decide (vy = vx)); congruence.
  - intros a b a' b' q k Ha _ Ha' _ [_ ->] [_ E]. now apply (cell_index_inj n).
  - intros a b q k m1 m2 _ _ _ H. unfold val.
    assert (E : forall q, q <> vx -> q <> vy -> m1 q = m2 q).
    { intros q' Hx Hy. apply list_eq. intros k'. apply H.
      intros a' b' _ _ [[Hq' | Hq'] _]; congruence. }
    unfold load. rewrite !(E vx0), !(E vy0) by congruence.
    unfold velocity_src. destruct (decide (q = vx)); [rewrite (E vx0) | rewrite (E vy0)];
      congruence.
  - lia.
  - lia.
  - split; [exact Hp |]. rewrite !Z2Nat.id by lia. reflexivity.
  - pose proof (cell_index_range n i j Hi Hj). lia.
Qed.
End advect_velocity.

(** ** The code's interpolation and the specification's *)

(** The nested form of the code is the four-weight combination about the
    cell [clamp] picks. *)
Lemma interp_backtrace_clamp (n : Z) (a : list Q) (x y dt u v : Q) :
  0 < n ->
  (interp n a (backtrace n x y dt u v)
   == clamp_bilinear n a (back n x dt u) (back n y dt v))%Q.
Proof.
  intros Hn. unfold backtrace, interp, clamp_bilinear. cbv zeta.
  rewrite !wrap_mod, !succ_wrap_mod by assumption. ring.
Qed.


Lemma acc_value (x dx : Q) (k : nat) :
  (acc x dx k == x + inject_Z (Z.of_nat k) * dx)%Q.
Proof.
  induction k as [| k IH].
  - simpl. change (inject_Z 0) with 0%Q. ring.
  - simpl acc. rewrite IH, Nat2Z.inj_succ. unfold Z.succ.
    rewrite inject_Z_plus. change (inject_Z 1) with 1%Q. ring.
Qed.

Lemma inject_Z_nonzero (n : Z) : n <> 0 -> ~ (inject_Z n == 0)%Q.
Proof.
  intros Hn E. apply Hn. apply (proj1 (inject_Z_injective n 0)). exact E.
Qed.





Lemma interp_const (n : Z) (a : list Q) (x y dt u v c : Q) :
  0 < n ->
  (forall k, 0 <= k < n * n -> (ld a k == c)%Q) ->
  (interp n a (backtrace n x y dt u v) == c)%Q.
Proof.
  intros Hn H.
  destruct (backtrace_corners n x y dt u v Hn) as (B1 & B2 & B3 & B4).
  destruct (backtrace n x y dt u v) as [i0 i1 j0 j1 s t]. simpl in *.
  rewrite (H _ B1), (H _ B2), (H _ B3), (H _ B4). ring.
Qed.

(** C9: advection preserves constant fields -- if every cell of the
    source buffer equals [c], every cell of the destination equals [c]
    after the advection loop, for every velocity field and [dt]. *)
Theorem advection_preserves_constants (n : Z) (dt c : Q) (m : mem) (i j : Z) :
  0 <= i < n -> 0 <= j < n ->
  (forall vx vy rho rho0 : ptr,
     rho <> vx -> rho <> vy -> rho <> rho0 ->
     (Z.to_nat (n * n) <= length (m rho))%nat ->
     (forall k, 0 <= k < n * n -> (load m rho0 k == c)%Q) ->
     (load (diffuse_matter n vx vy rho rho0 dt m) rho (i + n * j) == c)%Q) /\
  (forall vx vy vx0 vy0 : ptr,
     NoDup [vx; vy; vx0; vy0] ->
     (Z.to_nat (n * n) <= length (m vx))%nat ->
     (Z.to_nat (n * n) <= length (m vy))%nat ->
     let m' := advect_velocity n vx vy vx0 vy0 dt m in
     ((forall k, 0 <= k < n * n -> (load m vx0 k == c)%Q) ->
      (load m' vx (i + n * j) == c)%Q) /\
     ((forall k, 0 <= k < n * n -> (load m vy0 k == c)%Q) ->
      (load m' vy (i + n * j) == c)%Q)).
Proof.
  intros Hi Hj. assert (Hn : 0 < n) by lia. split.
  - intros vx vy rho rho0 H1 H2 H3 Hlen Hc.
    rewrite diffuse_matter_cell by assumption.
    now apply interp_const.
  - intros vx vy vx0 vy0 ND Lx Ly. cbv zeta.
    destruct (distinct4 _ _ _ _ ND) as (D1 & _).
    split; intros Hc.
    + rewrite (advect_velocity_cell_value n vx vy vx0 vy0 dt ND m vx) by auto.
      unfold velocity_src. destruct (decide (vx = vx)); [| congruence].
      now apply interp_const.
    + rewrite (advect_velocity_cell_value n vx vy vx0 vy0 dt ND m vy) by auto.
      unfold velocity_src. destruct (decide (vy = vx)); [congruence |].
      now apply interp_const.
Qed.

(** C5: the advection loops never write their source: [diffuse_matter]
    leaves every cell of [rho0] (and of every buffer but [rho]) as it was,
    and the velocity advection loop leaves the snapshots [vx0], [vy0] as
    they were. *)
Theorem advection_keeps_source (n : Z) (dt : Q) (m : mem) :
  (forall vx vy rho rho0 : ptr,
     rho0 <> rho -> diffuse_matter n vx vy rho rho0 dt m rho0 = m rho0) /\
  (forall vx vy vx0 vy0 : ptr,
     vx0 <> vx -> vx0 <> vy -> vy0 <> vx -> vy0 <> vy ->
     advect_velocity n vx vy vx0 vy0 dt m vx0 = m vx0 /\
     advect_velocity n vx vy vx0 vy0 dt m vy0 = m vy0) /\
  diffuse_matter n Pvx Pvy Prho Prho0 dt m Prho0 = m Prho0 /\
  advect_velocity n Pvx Pvy Pvx0 Pvy0 dt m Pvx0 = m Pvx0 /\
  advect_velocity n Pvx Pvy Pvx0 Pvy0 dt m Pvy0 = m Pvy0.
Proof.
  split; [| split; [| split; [| split]]].
  - intros vx vy rho rho0 H. now apply diffuse_matter_frame.
  - intros vx vy vx0 vy0 H1 H2 H3 H4.
    split; now apply advect_velocity_frame.
  - now apply diffuse_matter_frame.
  - now apply advect_velocity_frame.
  - now apply advect_velocity_frame.
Qed.

(** ** One-dimensional loops over the first [cnt] cells *)

Lemma sweep_cell_untouched (na nb : nat) (body : nat -> nat -> mem -> mem)
    (p : ptr) (k : nat) (m : mem) :
  (forall a b m', (a < na)%nat -> (b < nb)%nat -> body a b m' p !! k = m' p !! k) ->
  sweep na nb body m p !! k = m p !! k.
Proof.
  intros H. unfold sweep.
  pose proof (iter_from_inv (fun _ (m' : mem) => m' p !! k = m p !! k) na 0) as I.
  simpl in I. apply I; [reflexivity |].
  intros a m1 Ha E1. rewrite <- E1.
  pose proof (iter_from_inv (fun _ (m' : mem) => m' p !! k = m1 p !! k) nb 0) as J.
  simpl in J. apply J; [reflexivity |].
  intros b m2 Hb E2. rewrite H by lia. exact E2.
Qed.

Lemma sweep_length_preserved (na nb : nat) (body : nat -> nat -> mem -> mem)
    (p : ptr) (m : mem) :
  (forall a b m', length (body a b m' p) = length (m' p)) ->
  length (sweep na nb body m p) = length (m p).
Proof.
  intros H. unfold sweep.
  pose proof (iter_from_inv (fun _ (m' : mem) => length (m' p) = length (m p)) na 0) as I.
  simpl in I. apply I; [reflexivity |].
  intros a m1 Ha E1. rewrite <- E1.
  pose proof (iter_from_inv (fun _ (m' : mem) => length (m' p) = length (m1 p)) nb 0) as J.
  simpl in J. apply J; [reflexivity |].
  intros b m2 Hb E2. now rewrite H.
Qed.

(** *** set_forces *)

Lemma set_forces_sweep (m : mem) :
  set_forces m
  = sweep (Z.to_nat (DIM * DIM)) 1 (fun a _ m =>
      let i := 1 * Z.of_nat a in
      let m := store m Prho0 i (decay_rho * load m Prho i)%Q in
      let m := store m Pfx i (load m Pfx i * decay_force)%Q in
      let m := store m Pfy i (load m Pfy i * decay_force)%Q in
      let m := store m Pvx0 i (load m Pfx i) in
      store m Pvy0 i (load m Pfy i)) m.
Proof. unfold set_forces. now rewrite for_loop_sweep. Qed.

Lemma set_forces_lookup (m : mem) (p : ptr) (k : nat) :
  (k < Z.to_nat (DIM * DIM))%nat ->
  (p = Prho0 \/ p = Pfx \/ p = Pfy \/ p = Pvx0 \/ p = Pvy0) ->
  (k < length (m p))%nat ->
  set_forces m p !! k = Some (set_forces_val p k m).
Proof.
  intros Hk Hp Hlen. rewrite set_forces_sweep.
  apply (sweep_value _ _ _ (fun a _ => set_forces_own a)
           (fun a _ q _ => set_forces_val q a))
    with (a := k) (b := O).
  - intros a b m' q _ _. cbv zeta. now rewrite !store_length.
  - intros a b m' q k' _ _ Ho. cbv zeta. unfold set_forces_own in Ho.
    replace (1 * Z.of_nat a) with (Z.of_nat a) by lia.
    rewrite !store_lookup_ne; [reflexivity | | | | |];
      rewrite Nat2Z.id; intros [-> ->]; apply Ho; auto 10.
  - intros a b m' q k' _ _ [Hq ->] Hl. cbv zeta.
    replace (1 * Z.of_nat a) with (Z.of_nat a) by lia.
    unfold set_forces_val, load, ld, store, st. rewrite !Nat2Z.id.
    destruct Hq as [-> | [-> | [-> | [-> | ->]]]]; simpl.
    + now rewrite list_lookup_insert_eq.
    + rewrite list_lookup_insert_eq by assumption.
      destruct (m' Pfx !! a) eqn:E; [reflexivity |].
      apply lookup_ge_None in E. lia.
    + rewrite list_lookup_insert_eq by assumption.
      destruct (m' Pfy !! a) eqn:E; [reflexivity |].
      apply lookup_ge_None in E. lia.
    + rewrite list_lookup_insert_eq by assumption. f_equal.
      destruct (m' Pfx !! a) eqn:E.
      * rewrite list_lookup_insert_eq; [reflexivity |].
        now apply lookup_lt_Some in E.
      * apply lookup_ge_None in E. now rewrite list_insert_ge, lookup_ge_None_2.
    + rewrite list_lookup_insert_eq by assumption. f_equal.
      destruct (m' Pfy !! a) eqn:E.
      * rewrite list_lookup_insert_eq; [reflexivity |].
        now apply lookup_lt_Some in E.
      * apply lookup_ge_None in E. now rewrite list_insert_ge, lookup_ge_None_2.
  - intros a b a' b' q k' _ Hb _ Hb' [_ ->] [_ E]. lia.
  - intros a b q k' m1 m2 _ Hb _ H. unfold set_forces_val.
    assert (E1 : m1 Prho !! a = m2 Prho !! a).
    { apply H. intros a' b' _ _ [Hq _].
      destruct Hq as [? | [? | [? | [? | ?]]]]; discriminate. }
    assert (E2 : forall q', m1 q' !! a = m2 q' !! a).
    { intros q'. apply H. intros a' b' _ Hb' [_ ->]. lia. }
    destruct q; try reflexivity; rewrite ?E1, ?E2; reflexivity.
  - exact Hk.
  - lia.
  - split; [exact Hp | reflexivity].
  - exact Hlen.
Qed.

(** C6: one call of [set_forces] sets, at every cell, the density scratch
    to 0.995 times the current density, multiplies both force components
    by 0.85 and copies the decayed forces into the velocity scratch
    buffers; from density 10 and force (0.2, 0.2) it yields density
    scratch 9.95 and force (0.17, 0.17). *)
Theorem set_forces_decay (m : mem) (i : Z) :
  0 <= i < DIM * DIM ->
  (forall p, (Z.to_nat (DIM * DIM) <= length (m p))%nat) ->
  let m' := set_forces m in
  load m' Prho0 i = (decay_rho * load m Prho i)%Q /\
  load m' Pfx i = (load m Pfx i * decay_force)%Q /\
  load m' Pfy i = (load m Pfy i * decay_force)%Q /\
  load m' Pvx0 i = load m' Pfx i /\
  load m' Pvy0 i = load m' Pfy i /\
  ((load m Prho i == 10 # 1)%Q -> (load m Pfx i == 2 # 10)%Q ->
   (load m Pfy i == 2 # 10)%Q ->
   (load m' Prho0 i == 995 # 100)%Q /\
   (load m' Pfx i == 17 # 100)%Q /\ (load m' Pfy i == 17 # 100)%Q /\
   (load m' Pvx0 i == 17 # 100)%Q /\ (load m' Pvy0 i == 17 # 100)%Q).
Proof.
  intros Hi Hlen. cbv zeta.
  assert (Hk : (Z.to_nat i < Z.to_nat (DIM * DIM))%nat) by lia.
  assert (V : forall p, p = Prho0 \/ p = Pfx \/ p = Pfy \/ p = Pvx0 \/ p = Pvy0 ->
                        load (set_forces m) p i = set_forces_val p (Z.to_nat i) m).
  { intros p Hp. apply load_lookup. apply set_forces_lookup; auto.
    specialize (Hlen p). lia. }
  assert (F : forall p, match m p !! Z.to_nat i with
                        | Some v => (v * decay_force)%Q
                        | None => 0%Q
                        end = (load m p i * decay_force)%Q).
  { intros p. unfold load, ld. destruct (m p !! Z.to_nat i) eqn:E; [reflexivity |].
    apply lookup_ge_None in E. specialize (Hlen p). lia. }
  rewrite !V by auto 10. unfold set_forces_val. rewrite !F.
  do 5 (split; [reflexivity |]).
  intros H1 H2 H3. unfold load, ld in *. rewrite ?H1, ?H2, ?H3.
  repeat split; reflexivity.
Qed.

Lemma set_forces_decay_witness :
  (load (set_forces decay_mem) Prho0 7 == 995 # 100)%Q /\
  (load (set_forces decay_mem) Pfx 7 == 17 # 100)%Q /\
  (load (set_forces decay_mem) Pfy 7 == 17 # 100)%Q.
Proof.
  assert (H1 : 0 <= 7 < DIM * DIM) by (unfold DIM; lia).
  assert (H2 : forall p, (Z.to_nat (DIM * DIM) <= length (decay_mem p))%nat).
  { intros p. apply Nat.leb_le. destruct p; vm_compute; reflexivity. }
  destruct (set_forces_decay decay_mem 7 H1 H2) as (_ & _ & _ & _ & _ & H).
  destruct H as (A & B & C & _); try reflexivity.
  split; [exact A | split; [exact B | exact C]].
Defined.

(** The decay scenario is exact in binary64 as well: the rounded products
    are the doubles nearest to 9.95 and 0.17. *)
Example set_forces_decay_binary64 :
  PrimFloat.eqb (decay_rho_binary64 10) 9.95 = true /\
  PrimFloat.eqb (decay_force_binary64 0.2) 0.17 = true.
Proof. split; vm_compute; reflexivity. Qed.

(** [set_forces] reads the density and leaves it as it was. *)
Lemma set_forces_keeps_rho (m : mem) : set_forces m Prho = m Prho.
Proof.
  rewrite set_forces_sweep. apply sweep_untouched.
  intros a b m'. cbv zeta. now rewrite !store_other.
Qed.

(** *** init_simulation *)

Lemma zero_fill_sweep (n : Z) (m : mem) :
  zero_fill n m
  = sweep (Z.to_nat (n * n)) 1 (fun a _ m =>
      let i := 1 * Z.of_nat a in
      let m := store m Prho0 i 0%Q in
      let m := store m Prho i 0%Q in
      let m := store m Pfy i 0%Q in
      let m := store m Pfx i 0%Q in
      let m := store m Pvy0 i 0%Q in
      let m := store m Pvx0 i 0%Q in
      let m := store m Pvy i 0%Q in
      store m Pvx i 0%Q) m.
Proof. unfold zero_fill. now rewrite for_loop_sweep. Qed.

(** The loop stops at [n*n]: what lies beyond is as [malloc] returned it. *)
Lemma zero_fill_tail (n : Z) (m : mem) (p : ptr) (k : nat) :
  (Z.to_nat (n * n) <= k)%nat -> zero_fill n m p !! k = m p !! k.
Proof.
  intros Hk. rewrite zero_fill_sweep. apply sweep_cell_untouched.
  intros a b m' Ha _. cbv zeta.
  rewrite !store_lookup_ne; [reflexivity | | | | | | | |]; intros [_ ->]; lia.
Qed.

Lemma zero_fill_length (n : Z) (m : mem) (p : ptr) :
  length (zero_fill n m p) = length (m p).
Proof.
  rewrite zero_fill_sweep. apply sweep_length_preserved.
  intros a b m'. cbv zeta. now rewrite !store_length.
Qed.

Lemma malloc_lookup (junk : nat -> Q) (len : Z) (k : nat) :
  (k < Z.to_nat len)%nat -> malloc junk len !! k = Some (junk k).
Proof.
  intros H. unfold malloc. rewrite list_lookup_fmap, lookup_seq_lt by assumption.
  reflexivity.
Qed.

(** The first uninitialised element of [vx]: index [n*n] lies inside the
    block of [n*2*(n/2+1)] elements and still holds the heap's content. *)
Lemma init_simulation_padding (junk : ptr -> nat -> Q) (n : Z) (s : state) (p : ptr) (k : Z) :
  0 < n -> p = Pvx \/ p = Pvy \/ p = Pvx0 \/ p = Pvy0 ->
  n * n <= k < n * 2 * (Z.quot n 2 + 1) ->
  load (bufs (init_simulation junk n s)) p k = junk p (Z.to_nat k).
Proof.
  intros Hn Hp Hk. apply load_lookup. simpl.
  rewrite zero_fill_tail by lia.
  destruct Hp as [-> | [-> | [-> | ->]]]; simpl; apply malloc_lookup; lia.
Qed.

Lemma zero_fill_head (n : Z) (m : mem) (p : ptr) (k : nat) :
  (k < Z.to_nat (n * n))%nat -> (k < length (m p))%nat ->
  zero_fill n m p !! k = Some 0%Q.
Proof.
  intros Hk Hl. rewrite zero_fill_sweep.
  apply (sweep_value _ _ _ (fun a _ _ k' => k' = a) (fun _ _ _ _ _ => 0%Q))
    with (a := k) (b := O); try lia; try assumption.
  - intros a b m' q _ _. cbv zeta. now rewrite !store_length.
  - intros a b m' q k' _ _ Hne. cbv zeta.
    rewrite !store_lookup_ne; [reflexivity | | | | | | | |]; intros [_ ->]; lia.
  - intros a b m' q k' _ _ -> Hl'. cbv zeta. unfold store, st.
    rewrite Z.mul_1_l, Nat2Z.id.
    destruct q; simpl; now rewrite list_lookup_insert_eq.
  - reflexivity.
Qed.

Lemma allocate_length (junk : ptr -> nat -> Q) (n : Z) (p : ptr) :
  length (allocate junk n p)
  = match p with
    | Pvx | Pvy | Pvx0 | Pvy0 => Z.to_nat (n * 2 * (Z.quot n 2 + 1))
    | _ => Z.to_nat (n * n)
    end.
Proof.
  destruct p; unfold allocate, malloc; now rewrite length_map, length_seq.
Qed.

Lemma padded_extent (n : Z) : 0 < n -> n * n < n * 2 * (Z.quot n 2 + 1).
Proof.
  intros Hn. pose proof (Z.quot_rem' n 2) as E.
  pose proof (Z.rem_bound_pos n 2 ltac:(lia) ltac:(lia)). nia.
Qed.

(** What [init_simulation] does establish: the [n*n] grid cells of all
    eight arrays are zero. *)
Lemma init_simulation_zeroes_grid (junk : ptr -> nat -> Q) (n : Z) (s : state)
    (p : ptr) (k : Z) :
  0 < n -> 0 <= k < n * n -> load (bufs (init_simulation junk n s)) p k = 0%Q.
Proof.
  intros Hn Hk. apply load_lookup. unfold init_simulation, bufs.
  apply zero_fill_head; [lia |].
  rewrite allocate_length.
  pose proof (padded_extent n Hn).
  destruct p; lia.
Qed.

(** For an even grid size the velocity buffers hold exactly the padded
    layout [n * (n+2)] that [solve] indexes. *)
Lemma init_simulation_padded_length (junk : ptr -> nat -> Q) (n : Z) (s : state) (p : ptr) :
  0 < n -> Z.rem n 2 = 0 -> p = Pvx \/ p = Pvy \/ p = Pvx0 \/ p = Pvy0 ->
  length (bufs (init_simulation junk n s) p) = Z.to_nat ((n + 2) * n).
Proof.
  intros Hn He Hp. unfold init_simulation, bufs.
  rewrite zero_fill_length, allocate_length.
  pose proof (Z.quot_rem' n 2) as E. rewrite He in E.
  assert (A : n * 2 * (Z.quot n 2 + 1) = (n + 2) * n).
  { generalize dependent (Z.quot n 2). intros q E. nia. }
  destruct Hp as [-> | [-> | [-> | ->]]]; now rewrite A.
Qed.

(** C8 fails on the code: after [init_simulation(50)] on a heap that does
    not happen to be zero, element [2500] of [vx] (inside the allocated
    extent of 2600 elements) is not zero. *)
Theorem init_simulation_padding_not_zeroed (s : state) :
  length (bufs (init_simulation junk_ones DIM s) Pvx) = 2600%nat /\
  load (bufs (init_simulation junk_ones DIM s)) Pvx (DIM * DIM) = 1%Q /\
  ~ (load (bufs (init_simulation junk_ones DIM s)) Pvx (DIM * DIM) == 0)%Q.
Proof.
  assert (E : load (bufs (init_simulation junk_ones DIM s)) Pvx (DIM * DIM) = 1%Q).
  { rewrite init_simulation_padding; [reflexivity | | |]; unfold DIM; auto.
    - lia.
    - vm_compute. split; [discriminate | reflexivity]. }
  split; [| split].
  - unfold init_simulation, bufs. rewrite zero_fill_length, allocate_length.
    reflexivity.
  - exact E.
  - rewrite E. discriminate.
Qed.

(** ** The frequency loop *)

Lemma slot_inj (w c b c' b' : Z) :
  0 <= c < w -> 0 <= c' < w -> 0 <= b -> 0 <= b' ->
  c + w * b = c' + w * b' -> c = c' /\ b = b'.
Proof. intros Hc Hc' Hb Hb' E. assert (b = b') by nia. subst. lia. Qed.

Lemma bin_index_bound (n : Z) (a : nat) :
  (a < Z.to_nat (n / 2 + 1))%nat -> 0 <= 2 * Z.of_nat a <= n.
Proof.
  intros Ha.
  assert (H : Z.of_nat a < n / 2 + 1) by lia.
  pose proof (Z.mul_div_le n 2 ltac:(lia)). lia.
Qed.

Lemma project_own_inj (n : Z) (vx0 vy0 : ptr) (a b a' b' : nat) (p p' : ptr) (k : nat) :
  (a < Z.to_nat (n / 2 + 1))%nat -> (a' < Z.to_nat (n / 2 + 1))%nat ->
  project_own n vx0 vy0 a b p k -> project_own n vx0 vy0 a' b' p' k ->
  a = a' /\ b = b'.
Proof.
  intros Ha Ha' [_ Hk] [_ Hk'].
  pose proof (bin_index_bound n a Ha) as Ba.
  pose proof (bin_index_bound n a' Ha') as Ba'.
  assert (N1 : 0 <= (n + 2) * Z.of_nat b) by nia.
  assert (N2 : 0 <= (n + 2) * Z.of_nat b') by nia.
  assert (S : exists c c', 0 <= c < n + 2 /\ 0 <= c' < n + 2 /\
            (c = 2 * Z.of_nat a \/ c = 2 * Z.of_nat a + 1) /\
            (c' = 2 * Z.of_nat a' \/ c' = 2 * Z.of_nat a' + 1) /\
            c + (n + 2) * Z.of_nat b = c' + (n + 2) * Z.of_nat b').
  { destruct Hk as [-> | ->]; destruct Hk' as [E | E].
    - exists (2 * Z.of_nat a), (2 * Z.of_nat a'). repeat split; auto; lia.
    - exists (2 * Z.of_nat a), (2 * Z.of_nat a' + 1). repeat split; auto; lia.
    - exists (2 * Z.of_nat a + 1), (2 * Z.of_nat a'). repeat split; auto; lia.
    - exists (2 * Z.of_nat a + 1), (2 * Z.of_nat a' + 1). repeat split; auto; lia. }
  destruct S as (c & c' & Hc & Hc' & Ec & Ec' & E).
  destruct (slot_inj (n + 2) c (Z.of_nat b) c' (Z.of_nat b') Hc Hc') as [E1 E2];
    try lia.
Qed.

Section project.
Variables (L : libs) (n : Z) (vx0 vy0 : ptr) (visc dt : Q).

Lemma project_sweep (m : mem) :
project L n vx0 vy0 visc dt m
= sweep (Z.to_nat (n / 2 + 1)) (Z.to_nat n)
    (fun a b => project_bin L n vx0 vy0 visc dt
                  (2 * Z.of_nat a) (half * inject_Z (2 * Z.of_nat a))%Q
                  (Z.of_nat b)) m.
Proof.
unfold project.
exact (for_loop2_sweep _ _ 2
         (fun i j => project_bin L n vx0 vy0 visc dt i (half * inject_Z i)%Q j) m).
Qed.

Lemma project_bin_length (i : Z) (x : Q) (j : Z) (m : mem) (p : ptr) :
length (project_bin L n vx0 vy0 visc dt i x j m p) = length (m p).
Proof.
unfold project_bin. cbv zeta.
destruct (Qeq_bool _ 0); [reflexivity |]. now rewrite !store_length.
Qed.

Lemma project_length (m : mem) (p : ptr) :
length (project L n vx0 vy0 visc dt m p) = length (m p).
Proof.
rewrite project_sweep. apply sweep_length_preserved.
intros a b m'. apply project_bin_length.
Qed.

Hypothesis distinct : vx0 <> vy0.

Lemma project_lookup (m : mem) (a b : nat) (p : ptr) (k : nat) :
(a < Z.to_nat (n / 2 + 1))%nat -> (b < Z.to_nat n)%nat ->
project_own n vx0 vy0 a b p k -> (k < length (m p))%nat ->
project L n vx0 vy0 visc dt m p !! k
= Some (project_val L n vx0 vy0 visc dt a b p k m).
Proof.
intros Ha Hb Ho Hk. rewrite project_sweep.
apply (sweep_value _ _ _ (project_own n vx0 vy0)
         (project_val L n vx0 vy0 visc dt)); try assumption.
- intros a' b' m' q _ _. apply project_bin_length.
- intros a' b' m' q k' _ _ Hn. unfold project_bin. cbv zeta.
  destruct (Qeq_bool _ 0); [reflexivity |].
  rewrite !store_lookup_ne; [reflexivity | | | |];
    intros [-> ->]; apply Hn; unfold project_own; auto.
- intros a' b' m' q k' Ha' Hb' [Hq Hs] Hl.
  pose proof (bin_index_bound n a' Ha') as Ba.
  assert (N1 : 0 <= (n + 2) * Z.of_nat b') by nia.
  unfold project_bin, project_val. cbv zeta.
  destruct (Qeq_bool _ 0).
  { destruct (m' q !! k') eqn:E; [reflexivity |].
    apply lookup_ge_None in E. lia. }
  destruct Hq as [-> | ->]; destruct Hs as [-> | ->];
    repeat first
      [ rewrite store_lookup_ne by (intros [? ?]; first [congruence | lia])
      | rewrite store_lookup_eq by (rewrite ?store_length; assumption) ];
    destruct (decide _); try congruence; reflexivity.
- intros a1 b1 a2 b2 q k' H1 _ H2 _ O1 O2.
  now apply (project_own_inj n vx0 vy0 a1 b1 a2 b2 q q k').
- intros a' b' q k' m1 m2 Ha' _ Ho' H.
  assert (E : forall q', m1 q' !! k' = m2 q' !! k').
  { intros q'. apply H. intros a2 b2 Ha2 _ O2.
    now apply (project_own_inj n vx0 vy0 a2 b2 a' b' q' q k'). }
  unfold project_val. now rewrite !E.
Qed.
End project.

Lemma half_double (k : Z) : (half * inject_Z (2 * k) == inject_Z k)%Q.
Proof.
  rewrite inject_Z_mult. unfold half. change (inject_Z 2) with (2 # 1). field.
Qed.

Lemma projected_orthogonal (f x y U V : Q) :
  ~ (x * x + y * y == 0)%Q ->
  let r := (x * x + y * y)%Q in
  (x * (f * ((1 - x * x / r) * U - x * y / r * V))
   + y * (f * (- y * x / r * U + (1 - y * y / r) * V)) == 0)%Q.
Proof. intros Hr. cbv zeta. field. exact Hr. Qed.

Lemma project_bin_values (L : libs) (n : Z) (vx0 vy0 : ptr) (visc dt : Q) (m : mem)
    (kx j s : Z) :
  vx0 <> vy0 -> 0 <= kx <= n / 2 -> 0 <= j < n -> s = 0 \/ s = 1 ->
  (Z.to_nat ((n + 2) * n) <= length (m vx0))%nat ->
  (Z.to_nat ((n + 2) * n) <= length (m vy0))%nat ->
  let a := Z.to_nat kx in
  let b := Z.to_nat j in
  let k := Z.to_nat (2 * kx + s + (n + 2) * j) in
  let m' := project L n vx0 vy0 visc dt m in
  load m' vx0 (2 * kx + s + (n + 2) * j) = project_val L n vx0 vy0 visc dt a b vx0 k m /\
  load m' vy0 (2 * kx + s + (n + 2) * j) = project_val L n vx0 vy0 visc dt a b vy0 k m.
Proof.
  intros D Hk Hj Hs Lx Ly. cbv zeta.
  pose proof (Z.mul_div_le n 2 ltac:(lia)) as Hd.
  assert (Hin : 0 <= 2 * kx + s + (n + 2) * j < (n + 2) * n) by nia.
  assert (O : forall p, p = vx0 \/ p = vy0 ->
            project_own n vx0 vy0 (Z.to_nat kx) (Z.to_nat j) p
              (Z.to_nat (2 * kx + s + (n + 2) * j))).
  { intros p Hp. split; [exact Hp |]. rewrite !Z2Nat.id by lia.
    destruct Hs as [-> | ->]; [left | right]; f_equal; lia. }
  split; apply load_lookup; apply project_lookup; auto; lia.
Qed.

(** C1: after the frequency loop of [solve], for every bin [(kx,ky)]
    with [kx*kx + ky*ky <> 0], the updated coefficient pair is orthogonal
    to the wavevector: [kx*Vx + ky*Vy = 0], for the real part (slot
    [2kx]) and the imaginary part (slot [2kx+1]) of the bin. *)
Theorem projection_orthogonal (L : libs) (n : Z) (vx0 vy0 : ptr) (visc dt : Q)
    (m : mem) (kx j : Z) :
  vx0 <> vy0 -> 0 <= kx <= n / 2 -> 0 <= j < n ->
  (Z.to_nat ((n + 2) * n) <= length (m vx0))%nat ->
  (Z.to_nat ((n + 2) * n) <= length (m vy0))%nat ->
  let ky := fold_freq n j in
  ~ (inject_Z kx * inject_Z kx + ky * ky == 0)%Q ->
  let m' := project L n vx0 vy0 visc dt m in
  (inject_Z kx * load m' vx0 (2 * kx + (n + 2) * j)
   + ky * load m' vy0 (2 * kx + (n + 2) * j) == 0)%Q /\
  (inject_Z kx * load m' vx0 (2 * kx + 1 + (n + 2) * j)
   + ky * load m' vy0 (2 * kx + 1 + (n + 2) * j) == 0)%Q.
Proof.
  intros D Hk Hj Lx Ly ky Hr m'.
  assert (B : forall s, s = 0 \/ s = 1 ->
            (inject_Z kx * load m' vx0 (2 * kx + s + (n + 2) * j)
             + ky * load m' vy0 (2 * kx + s + (n + 2) * j) == 0)%Q).
  { intros s Hs.
    destruct (project_bin_values L n vx0 vy0 visc dt m kx j s D Hk Hj Hs Lx Ly)
      as [Ex Ey].
    fold m' in Ex, Ey. rewrite Ex, Ey. clear Ex Ey.
    unfold project_val. cbv zeta. rewrite !Z2Nat.id by lia. fold ky.
    set (x := (half * inject_Z (2 * kx))%Q).
    assert (X : (x == inject_Z kx)%Q) by apply half_double.
    assert (Hr' : ~ (x * x + ky * ky == 0)%Q) by (rewrite X; exact Hr).
    destruct (Qeq_bool (x * x + ky * ky) 0) eqn:E.
    { apply Qeq_bool_iff in E. contradiction. }
    destruct (decide (vx0 = vx0)); [| congruence].
    destruct (decide (vy0 = vx0)); [congruence |].
    rewrite <- X. now apply projected_orthogonal. }
  split.
  - pose proof (B 0 (or_introl eq_refl)) as B0.
    now rewrite !Z.add_0_r in B0.
  - apply (B 1). now right.
Qed.

(** The loop skips the zero-frequency bin: its four cells are untouched. *)
Lemma project_keeps_dc (L : libs) (n : Z) (vx0 vy0 : ptr) (visc dt : Q)
    (m : mem) (p : ptr) (k : nat) :
  0 < n -> vx0 <> vy0 -> p = vx0 \/ p = vy0 -> (k = 0 \/ k = 1)%nat ->
  project L n vx0 vy0 visc dt m p !! k = m p !! k.
Proof.
  intros Hn D Hp Hk.
  destruct (le_lt_dec (length (m p)) k) as [Hl | Hl].
  - rewrite !lookup_ge_None_2; [reflexivity | exact Hl |].
    now rewrite project_length.
  - pose proof (Z.div_pos n 2 ltac:(lia) ltac:(lia)) as Hd.
    rewrite (project_lookup L n vx0 vy0 visc dt D m 0 0 p k); try lia.
    + unfold project_val. cbv zeta.
      assert (E : Qeq_bool
                    (half * inject_Z (2 * Z.of_nat 0) * (half * inject_Z (2 * Z.of_nat 0))
                     + fold_freq n (Z.of_nat 0) * fold_freq n (Z.of_nat 0)) 0 = true).
      { unfold fold_freq.
        assert (Q0 : 0 <= Z.quot n 2) by (apply Z.quot_pos; lia).
        apply Z.leb_le in Q0. change (Z.of_nat 0) with 0.
        rewrite Q0. reflexivity. }
      rewrite E. destruct (m p !! k) eqn:E1; [reflexivity |].
      apply lookup_ge_None in E1. lia.
    + split; [exact Hp |]. change (Z.of_nat 0) with 0. rewrite !Z.mul_0_r.
      destruct Hk as [-> | ->]; [left | right]; reflexivity.
Qed.

Lemma project_frame (L : libs) (n : Z) (vx0 vy0 : ptr) (visc dt : Q) (m : mem) (p : ptr) :
  p <> vx0 -> p <> vy0 -> project L n vx0 vy0 visc dt m p = m p.
Proof.
  intros H1 H2. rewrite project_sweep. apply sweep_untouched.
  intros a b m'. unfold project_bin. cbv zeta.
  destruct (Qeq_bool _ 0); [reflexivity |]. now rewrite !store_other.
Qed.

(** ** Normalisation *)

Lemma normalize_sweep (n : Z) (vx vy vx0 vy0 : ptr) (m : mem) :
  normalize n vx vy vx0 vy0 m
  = sweep (Z.to_nat n) (Z.to_nat n)
      (fun a b m =>
         let i := 1 * Z.of_nat a in
         let j := Z.of_nat b in
         let m := store m vx (i + n * j)
                    (1 / inject_Z (n * n) * load m vx0 (i + (n + 2) * j))%Q in
         store m vy (i + n * j)
           (1 / inject_Z (n * n) * load m vy0 (i + (n + 2) * j))%Q) m.
Proof.
  unfold normalize. cbv zeta.
  exact (for_loop2_sweep _ _ 1
           (fun i j m =>
              store (store m vx (i + n * j)
                       (1 / inject_Z (n * n) * load m vx0 (i + (n + 2) * j))%Q)
                vy (i + n * j)
                (1 / inject_Z (n * n)
                 * load (store m vx (i + n * j)
                           (1 / inject_Z (n * n) * load m vx0 (i + (n + 2) * j))%Q)
                     vy0 (i + (n + 2) * j))%Q) m).
Qed.

Lemma normalize_cell (n : Z) (vx vy vx0 vy0 : ptr) (m : mem) (p : ptr) (i j : Z) :
  NoDup [vx; vy; vx0; vy0] -> p = vx \/ p = vy ->
  0 <= i < n -> 0 <= j < n -> (Z.to_nat (n * n) <= length (m p))%nat ->
  load (normalize n vx vy vx0 vy0 m) p (i + n * j)
  = (1 / inject_Z (n * n) * load m (velocity_src vx vx0 vy0 p) (i + (n + 2) * j))%Q.
Proof.
  intros ND Hp Hi Hj Hlen. rewrite normalize_sweep.
  destruct (distinct4 _ _ _ _ ND) as (D1 & D2 & D3 & D4 & D5 & D6).
  apply load_lookup.
  pose (own := fun (a b : nat) (p : ptr) (k : nat) =>
                 (p = vx \/ p = vy) /\ k = Z.to_nat (Z.of_nat a + n * Z.of_nat b)).
  pose (val := fun (a b : nat) (p : ptr) (k : nat) (m : mem) =>
                 (1 / inject_Z (n * n)
                  * load m (velocity_src vx vx0 vy0 p)
                      (Z.of_nat a + (n + 2) * Z.of_nat b))%Q).
  rewrite (sweep_value _ _ _ own val) with (a := Z.to_nat i) (b := Z.to_nat j).
  - unfold val. rewrite !Z2Nat.id by lia. reflexivity.
  - intros a b m' q _ _. cbv zeta. now rewrite !store_length.
  - intros a b m' q k _ _ Ho. cbv zeta.
    replace (1 * Z.of_nat a) with (Z.of_nat a) by lia.
    rewrite !store_lookup_ne; [reflexivity | |]; intros [-> ->]; apply Ho; split; auto.
  - intros a b m' q k _ _ [Hq ->] Hk. cbv zeta. unfold val, velocity_src.
    replace (1 * Z.of_nat a) with (Z.of_nat a) by lia.
    destruct Hq as [-> | ->].
    + rewrite store_lookup_ne by (intros [? _]; congruence).
      rewrite store_lookup_eq by assumption.
      destruct (decide (vx = vx)); congruence.
    + rewrite store_lookup_eq by (rewrite store_length; assumption).
      unfold load. rewrite (store_other _ vx vy0) by congruence.
      destruct (decide (vy = vx)); congruence.
  - intros a b a' b' q k Ha _ Ha' _ [_ ->] [_ E]. now apply (cell_index_inj n).
  - intros a b q k m1 m2 _ _ _ H. unfold val.
    assert (E : forall q, q <> vx -> q <> vy -> m1 q = m2 q).
    { intros q' Hx Hy. apply list_eq. intros k'. apply H.
      intros a' b' _ _ [[Hq' | Hq'] _]; congruence. }
    unfold load, velocity_src.
    destruct (decide (q = vx)); [rewrite (E vx0) | rewrite (E vy0)]; congruence.
  - lia.
  - lia.
  - split; [exact Hp |]. rewrite !Z2Nat.id by lia. reflexivity.
  - pose proof (cell_index_range n i j Hi Hj). lia.
Qed.

(** ** Sums over the grid *)

Lemma sum_to_ext (k : nat) (f g : Z -> Q) :
  (forall i, 0 <= i < Z.of_nat k -> (f i == g i)%Q) ->
  (sum_to k f == sum_to k g)%Q.
Proof.
  induction k as [| k IH]; intros H; [reflexivity |].
  simpl. rewrite IH, (H (Z.of_nat k)) by (try intros i Hi; try apply H; lia).
  reflexivity.
Qed.

Lemma sum_to_scale (k : nat) (c : Q) (f : Z -> Q) :
  (sum_to k (fun i => c * f i) == c * sum_to k f)%Q.
Proof.
  induction k as [| k IH]; simpl; [ring |]. rewrite IH. ring.
Qed.

Lemma grid_sum_scaled (n s s' : Z) (a a' : list Q) (c : Q) :
  0 <= n ->
  (forall i j, 0 <= i < n -> 0 <= j < n ->
               (ld a (i + s * j) == c * ld a' (i + s' * j))%Q) ->
  (grid_sum n s a == c * grid_sum n s' a')%Q.
Proof.
  intros Hn H. unfold grid_sum.
  rewrite <- sum_to_scale. apply sum_to_ext. intros j Hj. cbv beta.
  rewrite <- sum_to_scale. apply sum_to_ext. intros i Hi. cbv beta.
  apply H; lia.
Qed.

(** ** The spectral step *)

Lemma FFT_same (L : libs) (prc pcr d : Z) (p : ptr) (m : mem) :
  FFT L prc pcr d p m p
  = if Z.eqb d 1 then lib_r2c L prc (m p) else lib_c2r L pcr (m p).
Proof.
  unfold FFT, setbuf. destruct (Z.eqb d 1); destruct (decide (p = p)); congruence.
Qed.

Lemma FFT_other (L : libs) (prc pcr d : Z) (p q : ptr) (m : mem) :
  q <> p -> FFT L prc pcr d p m q = m q.
Proof.
  intros H. unfold FFT, setbuf.
  destruct (Z.eqb d 1); destruct (decide (q = p)); congruence.
Qed.

Lemma spectral_step_sum (L : libs) (n : Z) (vx vy vx0 vy0 : ptr) (visc dt : Q)
    (m : mem) (p : ptr) :
  0 < n -> NoDup [vx; vy; vx0; vy0] -> p = vx \/ p = vy ->
  (Z.to_nat (n * n) <= length (m p))%nat ->
  transform_dc L n ->
  (grid_sum n n (spectral_step L n n n vx vy vx0 vy0 visc dt m p)
   == grid_sum n (n + 2) (m (velocity_src vx vx0 vy0 p)))%Q.
Proof.
  intros Hn ND Hp Hlen [T1 T2].
  destruct (distinct4 _ _ _ _ ND) as (D1 & D2 & D3 & D4 & D5 & D6).
  unfold spectral_step. cbv zeta.
  set (m1 := FFT L n n 1 vx0 m).
  set (m2 := FFT L n n 1 vy0 m1).
  set (m3 := project L n vx0 vy0 visc dt m2).
  set (m4 := FFT L n n (-1) vx0 m3).
  set (m5 := FFT L n n (-1) vy0 m4).
  set (q := velocity_src vx vx0 vy0 p).
  assert (Hq : q = vx0 \/ q = vy0).
  { unfold q, velocity_src. destruct (decide (p = vx)); auto. }
  assert (Hpq : p <> vx0 /\ p <> vy0) by (destruct Hp as [-> | ->]; auto).
  destruct Hpq as [P1 P2].
  assert (L5 : m5 p = m p).
  { unfold m5, m4, m3, m2, m1.
    rewrite !FFT_other, project_frame, !FFT_other by assumption. reflexivity. }
  assert (E5 : m5 q = lib_c2r L n (m3 q)).
  { unfold m5, m4. destruct Hq as [-> | ->].
    - rewrite FFT_other by assumption. now rewrite FFT_same.
    - rewrite FFT_same. simpl. now rewrite FFT_other by auto. }
  assert (E2 : m2 q = lib_r2c L n (m q)).
  { unfold m2, m1. destruct Hq as [-> | ->].
    - rewrite FFT_other by assumption. now rewrite FFT_same.
    - rewrite FFT_same. simpl. now rewrite FFT_other by auto. }
  assert (E3 : ld (m3 q) 0 = ld (m2 q) 0).
  { unfold ld, m3. simpl. now rewrite project_keeps_dc by auto. }
  rewrite (grid_sum_scaled n n (n + 2) _ (m5 q) (1 / inject_Z (n * n))).
  - rewrite E5, T2, E3, E2, T1. field. apply inject_Z_nonzero. nia.
  - lia.
  - intros i j Hi Hj.
    pose proof (normalize_cell n vx vy vx0 vy0 m5 p i j ND Hp Hi Hj) as N.
    unfold load in N. fold q in N. rewrite N; [reflexivity |].
    now rewrite L5.
Qed.

(** C2: the zero-frequency bin is left untouched by the frequency loop,
    and the mean velocity over the grid is unchanged by the full spectral
    step (forward transform, per-bin update, inverse transform, division
    by [n*n]), for every velocity field, viscosity and [dt]. *)
Theorem spectral_step_preserves_mean (L : libs) (n : Z) (vx vy vx0 vy0 : ptr)
    (visc dt : Q) (m : mem) :
  0 < n -> NoDup [vx; vy; vx0; vy0] ->
  (Z.to_nat (n * n) <= length (m vx))%nat ->
  (Z.to_nat (n * n) <= length (m vy))%nat ->
  transform_dc L n ->
  let m' := spectral_step L n n n vx vy vx0 vy0 visc dt m in
  (grid_mean n n (m' vx) == grid_mean n (n + 2) (m vx0))%Q /\
  (grid_mean n n (m' vy) == grid_mean n (n + 2) (m vy0))%Q /\
  forall (m0 : mem) (p : ptr) (k : nat),
    p = vx0 \/ p = vy0 -> (k = 0 \/ k = 1)%nat ->
    project L n vx0 vy0 visc dt m0 p !! k = m0 p !! k.
Proof.
  intros Hn ND Lx Ly T. cbv zeta.
  destruct (distinct4 _ _ _ _ ND) as (D1 & D2 & D3 & D4 & D5 & D6).
  pose proof (spectral_step_sum L n vx vy vx0 vy0 visc dt m vx Hn ND
                (or_introl eq_refl) Lx T) as Sx.
  pose proof (spectral_step_sum L n vx vy vx0 vy0 visc dt m vy Hn ND
                (or_intror eq_refl) Ly T) as Sy.
  unfold velocity_src in Sx, Sy.
  destruct (decide (vx = vx)); [| congruence].
  destruct (decide (vy = vx)); [congruence |].
  unfold grid_mean. split; [| split].
  - now rewrite Sx.
  - now rewrite Sy.
  - intros m0 p k Hp Hk. now apply project_keeps_dc.
Qed.

Lemma grid_sum_2 (s : Z) (a : list Q) :
  (grid_sum 2 s a == ld a 0 + ld a 1 + ld a s + ld a (1 + s))%Q.
Proof.
  unfold grid_sum. change (Z.to_nat 2) with 2%nat. unfold sum_to.
  change (Z.of_nat 0) with 0. change (Z.of_nat 1) with 1.
  rewrite Z.mul_0_r, Z.mul_1_r, !Z.add_0_r, Z.add_0_l. ring.
Qed.

Lemma libs2_transform_dc : transform_dc libs2 2.
Proof.
  split; intros buf; rewrite grid_sum_2; change (2 + 2) with 4;
    change (1 + 4) with 5.
  - reflexivity.
  - unfold libs2, lib_c2r, dft2_c2r.
    set (c00 := ld buf 0). set (c10 := ld buf 2).
    set (c01 := ld buf 4). set (c11 := ld buf 6).
    change (inject_Z (2 * 2)) with (4 # 1).
    unfold ld. simpl. ring.
Qed.

Lemma spectral_step_preserves_mean_witness :
  (grid_mean 2 2 (spectral_step libs2 2 2 2 Pvx Pvy Pvx0 Pvy0 0 1 grid2 Pvx)
   == grid_mean 2 4 (grid2 Pvx0))%Q.
Proof.
  apply (spectral_step_preserves_mean libs2 2 Pvx Pvy Pvx0 Pvy0 0 1 grid2).
  - lia.
  - exact velocity_ptrs_distinct.
  - vm_compute. lia.
  - vm_compute. lia.
  - exact libs2_transform_dc.
Defined.

Lemma projection_orthogonal_witness :
  let m' := project libs2 2 Pvx0 Pvy0 0 1 grid2 in
  (inject_Z 1 * load m' Pvx0 (2 * 1 + (2 + 2) * 1)
   + fold_freq 2 1 * load m' Pvy0 (2 * 1 + (2 + 2) * 1) == 0)%Q.
Proof.
  apply (projection_orthogonal libs2 2 Pvx0 Pvy0 0 1 grid2 1 1).
  - discriminate.
  - split; [lia | vm_compute; discriminate].
  - lia.
  - vm_compute. lia.
  - vm_compute. lia.
  - vm_compute. discriminate.
Defined.



Lemma advection_preserves_constants_witness :
  (load (diffuse_matter 2 Pvx0 Pvy0 Prho Prho0 (1 # 2) grid2_const) Prho (1 + 2 * 0)
   == 3 # 1)%Q.
Proof.
  apply (proj1 (advection_preserves_constants 2 (1 # 2) (3 # 1) grid2_const 1 0
                  ltac:(lia) ltac:(lia))).
  - discriminate.
  - discriminate.
  - discriminate.
  - vm_compute. lia.
  - intros k Hk.
    assert (K : k = 0 \/ k = 1 \/ k = 2 \/ k = 3) by lia.
    destruct K as [-> | [-> | [-> | ->]]]; reflexivity.
Defined.

Lemma advection_keeps_source_witness :
  diffuse_matter 2 Pvx0 Pvy0 Prho Prho0 (1 # 2) grid2 Prho0 = grid2 Prho0.
Proof.
  apply (proj1 (advection_keeps_source 2 (1 # 2) grid2)). discriminate.
Defined.

(** The premise of C5 is needed: called with [rho] and [rho0] naming the
    same array, [diffuse_matter] overwrites what it reads. *)
Example diffuse_matter_aliased :
  diffuse_matter 2 Pvx0 Pvy0 Prho0 Prho0 (1 # 2) grid2 Prho0 <> grid2 Prho0.
Proof. vm_compute. discriminate. Qed.

(** ** do_one_simulation_step *)

(** C7: when [frozen] is set, [do_one_simulation_step] is a no-op: the
    whole state -- every buffer, the plans, [dt], [visc], the flag, and
    the number of redisplay requests -- is returned as it was. *)
Theorem frozen_step_is_noop (L : libs) (s : state) :
  frozen s <> 0 -> do_one_simulation_step L s = s.
Proof.
  intros H. unfold do_one_simulation_step.
  destruct (Z.eqb_spec (frozen s) 0); [contradiction | reflexivity].
Qed.

Lemma frozen_step_is_noop_witness :
  do_one_simulation_step libs2 paused_state = paused_state.
Proof.
  apply (frozen_step_is_noop libs2 paused_state). discriminate.
Defined.

(** A running step is not the identity: it requests a redisplay and runs
    the three phases. *)
Lemma running_step (L : libs) (s : state) :
  frozen s = 0 ->
  redisplays (do_one_simulation_step L s) = S (redisplays s) /\
  bufs (do_one_simulation_step L s)
  = diffuse_matter DIM Pvx Pvy Prho Prho0 (dt s)
      (solve L (plan_rc s) (plan_cr s) DIM Pvx Pvy Pvx0 Pvy0 (visc s) (dt s)
         (set_forces (bufs s))).
Proof.
  intros H. unfold do_one_simulation_step. rewrite H. simpl. split; reflexivity.
Qed.

(** ** Sanity checks of the embedding on concrete inputs *)

Example clamp_values :
  (clamp (3 # 2), clamp 0, clamp (2 # 1), clamp (-1 # 2), clamp (-3 # 2), clamp (-1 # 1))
  = (1, 0, 2, -1, -2, -2).
Proof. vm_compute. reflexivity. Qed.

(** [clamp] sees its argument in binary32: [3 - 2^-30] and [3 - 2^-23]
    are rounded to 3, [3 + 2^25] to [4 + 2^25], [-2^-30] is kept but
    [1 + 2^-30] is rounded to 1, and [-(1 - 2^-24)] is kept but
    [2 - 2^-24] is rounded to 2. *)
Example clamp_binary32 :
  (clamp (3 - pow2 (-30)), clamp (3 - pow2 (-23)), clamp (3 + pow2 25),
   clamp (- pow2 (-30)), clamp (- (1 - pow2 (-24))))
  = (3, 3, 33554436, -1, -2).
Proof. vm_compute. reflexivity. Qed.

(** Binary32 roundings, among them the quotients [0.5f/50] and
    [1.0f/50]. *)
Example f32_values :
  (Qred (f32 (1 # 100)), Qred (f32 (1 # 50)), Qred (f32 (1 # 3)),
   Qred (f32 (16777217 # 1)), Qred (f32 (1 # 4)))
  = (5368709 # 536870912, 5368709 # 268435456, 11184811 # 33554432,
     16777216 # 1, 1 # 4)%Q.
Proof. vm_compute. reflexivity. Qed.

Example wrap_values :
  (wrap 5 (-7), wrap 5 7, wrap 5 (-5), succ_wrap 5 4) = (3, 2, 0, 0).
Proof. reflexivity. Qed.

(** On the 2 x 2 grid the coordinates [1/4] and [3/4] are binary32
    values: with zero velocity the traced position is the cell itself and
    the density is reproduced. *)
Example diffuse_matter_at_rest :
  map Qred (diffuse_matter 2 Pvx Pvy Prho Prho0 1 grid2 Prho) = [1; 2; 3; 4]%Q.
Proof. vm_compute. reflexivity. Qed.

(** On the 50 x 50 grid they are not: [0.5f/50 < 1/100], so at rest cell
    [(0,0)] is traced to [x0 = y0 < 0], just off the grid, and receives a
    blend with the opposite edges instead of its own density 1. *)
Example diffuse_matter_at_rest_50 :
  (back 50 (coord 50 0) (4 # 100) 0 < 0)%Q /\
  clamp (back 50 (coord 50 0) (4 # 100) 0) = -1 /\
  (10000279 # 10000000
   < load (diffuse_matter 50 Pvx Pvy Prho Prho0 (4 # 100) ramp50) Prho (0 + 50 * 0)
   < 1000028 # 1000000)%Q.
Proof.
  split; [vm_compute; reflexivity |]. split; [vm_compute; reflexivity |].
  rewrite diffuse_matter_cell; try discriminate; try lia.
  - vm_compute. split; reflexivity.
  - vm_compute. lia.
Qed.

Example diffuse_matter_moving :
  map Qred (diffuse_matter 2 Pvx0 Pvy0 Prho Prho0 (1 # 2) grid2 Prho)
  = [19 # 10; 7 # 4; 2; 1]%Q.
Proof. vm_compute. reflexivity. Qed.

(** The sample is not periodic in the traced position.  On the 2 x 2
    grid of densities 1, 2, 3, 4 the positions [3 - 2^-23] and [1 - 2^-23],
    one period apart, give [2 + 2^-23] and [2 - 2^-23]; [3] and [3 + 2^25]
    give 2 and 0. *)
Example backtrace_not_periodic :
  let sample x0 := Qred (interp 2 [1; 2; 3; 4]%Q (backtrace 2 (1 # 4) (1 # 4) 1 (- x0 / 2) 0)) in
  (sample (3 - pow2 (-23)), sample (1 - pow2 (-23)), sample 3, sample (3 + pow2 25))%Q
  = (16777217 # 8388608, 16777215 # 8388608, 2, 0)%Q.
Proof. vm_compute. reflexivity. Qed.

(** The 2 x 2 transform of [vx0], and the result of the frequency loop:
    the zero-frequency cell keeps [43/12], bin [(1,0)] loses its
    x-component, bin [(1,1)] is projected onto [(1,-1)]. *)
Example project_grid2 :
  let m := FFT libs2 2 2 1 Pvy0 (FFT libs2 2 2 1 Pvx0 grid2) in
  map Qred (m Pvx0) = [43 # 12; 0; 41 # 12; 0; -37 # 12; 0; -23 # 12; 0]%Q /\
  map Qred (project libs2 2 Pvx0 Pvy0 0 1 m Pvx0)
  = [43 # 12; 0; 0; 0; -37 # 12; 0; -97 # 120; 0]%Q /\
  map Qred (project libs2 2 Pvx0 Pvy0 0 1 m Pvy0)
  = [17 # 10; 0; -33 # 10; 0; 0; 0; 97 # 120; 0]%Q.
Proof. vm_compute. repeat split. Qed.

(** * Further properties of the solver *)

Lemma load_store_other (m : mem) (p q : ptr) (i j : Z) (v : Q) :
  q <> p -> load (store m p i v) q j = load m q j.
Proof. intros H. unfold load. now rewrite store_other. Qed.

Lemma load_store_same (m : mem) (p : ptr) (i : Z) (v : Q) :
  load (store m p i v) p i
  = match m p !! Z.to_nat i with Some _ => v | None => 0%Q end.
Proof.
  unfold load, ld, store, st. destruct (decide (p = p)); [| congruence].
  destruct (m p !! Z.to_nat i) eqn:E.
  - apply lookup_lt_Some in E. now rewrite list_lookup_insert_eq.
  - apply lookup_ge_None in E. rewrite list_insert_ge by assumption.
    now rewrite lookup_ge_None_2.
Qed.

(** ** The force loop of [solve] *)

Section add_forces.
Variables (n : Z) (vx vy vx0 vy0 : ptr) (dt : Q).

Lemma add_forces_sweep (m : mem) :
  add_forces n vx vy vx0 vy0 dt m
  = sweep (Z.to_nat (n * n)) 1 (fun a _ m =>
      let i := 1 * Z.of_nat a in
      let m := store m vx i (load m vx i + dt * load m vx0 i)%Q in
      let m := store m vx0 i (load m vx i) in
      let m := store m vy i (load m vy i + dt * load m vy0 i)%Q in
      store m vy0 i (load m vy i)) m.
Proof. unfold add_forces. now rewrite for_loop_sweep. Qed.

Lemma add_forces_frame (m : mem) (p : ptr) :
  p <> vx -> p <> vy -> p <> vx0 -> p <> vy0 ->
  add_forces n vx vy vx0 vy0 dt m p = m p.
Proof.
  intros H1 H2 H3 H4. rewrite add_forces_sweep. apply sweep_untouched.
  intros a b m'. cbv zeta. now rewrite !store_other.
Qed.

Hypothesis distinct : NoDup [vx; vy; vx0; vy0].

Lemma add_forces_lookup (m : mem) (p : ptr) (k : nat) :
  (k < Z.to_nat (n * n))%nat ->
  p = vx \/ p = vy \/ p = vx0 \/ p = vy0 ->
  (k < length (m p))%nat ->
  add_forces n vx vy vx0 vy0 dt m p !! k
  = Some (add_forces_val vx vy vx0 vy0 dt k p m).
Proof.
  intros Hk Hp Hlen. rewrite add_forces_sweep.
  destruct (distinct4 _ _ _ _ distinct) as (D1 & D2 & D3 & D4 & D5 & D6).
  apply (sweep_value _ _ _ (fun a _ => velocity_cells vx vy vx0 vy0 a)
           (fun a _ q _ => add_forces_val vx vy vx0 vy0 dt a q))
    with (a := k) (b := O).
  - intros a b m' q _ _. cbv zeta. now rewrite !store_length.
  - intros a b m' q k' _ _ Ho. cbv zeta. unfold velocity_cells in Ho.
    replace (1 * Z.of_nat a) with (Z.of_nat a) by lia.
    rewrite !store_lookup_ne; [reflexivity | | | |];
      rewrite Nat2Z.id; intros [-> ->]; apply Ho; auto 10.
  - intros a b m' q k' _ _ [Hq ->] Hl. cbv zeta.
    replace (1 * Z.of_nat a) with (Z.of_nat a) by lia.
    set (i := Z.of_nat a).
    assert (Ei : Z.to_nat i = a) by (unfold i; apply Nat2Z.id).
    assert (C : forall m0 q0, load m0 q0 i = cur m0 q0 a).
    { intros m0 q0. unfold load, ld, cur. now rewrite Ei. }
    unfold add_forces_val.
    destruct Hq as [-> | [-> | [-> | ->]]].
    + destruct (decide (vx = vx)); [| congruence].
      rewrite !store_lookup_ne by (intros [? _]; congruence).
      rewrite <- Ei at 1. rewrite store_lookup_eq by (rewrite Ei; assumption).
      now rewrite !C.
    + destruct (decide (vy = vx)); [congruence |].
      destruct (decide (vy = vy)); [| congruence].
      rewrite store_lookup_ne by (intros [? _]; congruence).
      rewrite <- Ei at 1.
      rewrite store_lookup_eq by (rewrite !store_length, Ei; assumption).
      rewrite !load_store_other by congruence. now rewrite !C.
    + destruct (decide (vx0 = vx)); [congruence |].
      destruct (decide (vx0 = vy)); [congruence |].
      destruct (decide (vx0 = vx0)); [| congruence].
      rewrite !store_lookup_ne by (intros [? _]; congruence).
      rewrite <- Ei at 1.
      rewrite store_lookup_eq by (rewrite !store_length, Ei; assumption).
      rewrite load_store_same, Ei, !C. unfold cur.
      destruct (m' vx !! a); reflexivity.
    + destruct (decide (vy0 = vx)); [congruence |].
      destruct (decide (vy0 = vy)); [congruence |].
      destruct (decide (vy0 = vx0)); [congruence |].
      rewrite <- Ei at 1.
      rewrite store_lookup_eq by (rewrite !store_length, Ei; assumption).
      rewrite load_store_same, Ei.
      rewrite !store_other by congruence.
      rewrite !load_store_other by congruence. rewrite !C. unfold cur.
      destruct (m' vy !! a); reflexivity.
  - intros a b a' b' q k' _ Hb _ Hb' [_ ->] [_ E]. lia.
  - intros a b q k' m1 m2 _ Hb _ H. unfold add_forces_val, cur.
    assert (E : forall q', m1 q' !! a = m2 q' !! a).
    { intros q'. apply H. intros a' b' _ Hb' [_ ->]. lia. }
    now rewrite !E.
  - exact Hk.
  - lia.
  - split; [exact Hp | reflexivity].
  - exact Hlen.
Qed.
End add_forces.

(** X1: the first loop of [solve] adds [dt] times the scratch buffers
    (the forces) to the velocity and mirrors the result into the scratch
    buffers, which become the pre-advection snapshot. *)
Theorem add_forces_snapshot (n : Z) (vx vy vx0 vy0 : ptr) (dt : Q) (m : mem) (i : Z) :
  NoDup [vx; vy; vx0; vy0] -> 0 <= i < n * n ->
  (forall p, p = vx \/ p = vy \/ p = vx0 \/ p = vy0 ->
             (Z.to_nat (n * n) <= length (m p))%nat) ->
  let m' := add_forces n vx vy vx0 vy0 dt m in
  load m' vx i = (load m vx i + dt * load m vx0 i)%Q /\
  load m' vy i = (load m vy i + dt * load m vy0 i)%Q /\
  load m' vx0 i = load m' vx i /\
  load m' vy0 i = load m' vy i.
Proof.
  intros ND Hi Hlen. cbv zeta.
  destruct (distinct4 _ _ _ _ ND) as (D1 & D2 & D3 & D4 & D5 & D6).
  assert (V : forall p, p = vx \/ p = vy \/ p = vx0 \/ p = vy0 ->
            load (add_forces n vx vy vx0 vy0 dt m) p i
            = add_forces_val vx vy vx0 vy0 dt (Z.to_nat i) p m).
  { intros p Hp. apply load_lookup. apply add_forces_lookup; auto; try lia.
    specialize (Hlen p Hp). lia. }
  assert (S : forall p, p = vx \/ p = vy \/ p = vx0 \/ p = vy0 ->
            exists v, m p !! Z.to_nat i = Some v /\ load m p i = v).
  { intros p Hp. specialize (Hlen p Hp).
    destruct (m p !! Z.to_nat i) eqn:E.
    - exists q. split; [reflexivity |]. unfold load, ld. now rewrite E.
    - apply lookup_ge_None in E. lia. }
  rewrite !V by auto. unfold add_forces_val, cur.
  destruct (S vx) as (a & Ea & La); auto.
  destruct (S vy) as (b & Eb & Lb); auto.
  unfold load, ld in *. rewrite Ea, Eb.
  repeat match goal with
         | |- context [decide (?x = ?y)] => destruct (decide (x = y)); try congruence
         end.
  repeat split; reflexivity.
Qed.

Lemma add_forces_snapshot_witness :
  let m' := add_forces 2 Pvx Pvy Pvx0 Pvy0 (1 # 2) grid2 in
  load m' Pvx0 1 = load m' Pvx 1.
Proof.
  cbv zeta.
  apply (add_forces_snapshot 2 Pvx Pvy Pvx0 Pvy0 (1 # 2) grid2 1).
  - exact velocity_ptrs_distinct.
  - lia.
  - intros p [-> | [-> | [-> | ->]]]; vm_compute; lia.
Defined.

(** ** Copying into the padded layout *)

Lemma pad_velocity_sweep (n : Z) (vx vy vx0 vy0 : ptr) (m : mem) :
  pad_velocity n vx vy vx0 vy0 m
  = sweep (Z.to_nat n) (Z.to_nat n)
      (fun a b m =>
         let i := 1 * Z.of_nat a in
         let j := Z.of_nat b in
         let m := store m vx0 (i + (n + 2) * j) (load m vx (i + n * j)) in
         store m vy0 (i + (n + 2) * j) (load m vy (i + n * j))) m.
Proof.
  unfold pad_velocity.
  exact (for_loop2_sweep _ _ 1
           (fun i j m =>
              store (store m vx0 (i + (n + 2) * j) (load m vx (i + n * j)))
                vy0 (i + (n + 2) * j)
                (load (store m vx0 (i + (n + 2) * j) (load m vx (i + n * j)))
                   vy (i + n * j))) m).
Qed.

Lemma pad_velocity_frame (n : Z) (vx vy vx0 vy0 : ptr) (m : mem) (p : ptr) :
  p <> vx0 -> p <> vy0 -> pad_velocity n vx vy vx0 vy0 m p = m p.
Proof.
  intros H1 H2. rewrite pad_velocity_sweep. apply sweep_untouched.
  intros a b m'. cbv zeta. now rewrite !store_other.
Qed.

Lemma padded_index_inj (n : Z) (a b a' b' : nat) :
  (a < Z.to_nat n)%nat -> (a' < Z.to_nat n)%nat ->
  Z.to_nat (Z.of_nat a + (n + 2) * Z.of_nat b)
  = Z.to_nat (Z.of_nat a' + (n + 2) * Z.of_nat b') ->
  a = a' /\ b = b'.
Proof.
  intros Ha Ha' E.
  assert (N1 : 0 <= (n + 2) * Z.of_nat b) by nia.
  assert (N2 : 0 <= (n + 2) * Z.of_nat b') by nia.
  destruct (slot_inj (n + 2) (Z.of_nat a) (Z.of_nat b) (Z.of_nat a') (Z.of_nat b'));
    lia.
Qed.

Lemma pad_velocity_cell (n : Z) (vx vy vx0 vy0 : ptr) (m : mem) (p : ptr) (i j : Z) :
  NoDup [vx; vy; vx0; vy0] -> p = vx0 \/ p = vy0 ->
  0 <= i < n -> 0 <= j < n -> (Z.to_nat ((n + 2) * n) <= length (m p))%nat ->
  load (pad_velocity n vx vy vx0 vy0 m) p (i + (n + 2) * j)
  = load m (pad_src vx vy vx0 p) (i + n * j).
Proof.
  intros ND Hp Hi Hj Hlen. rewrite pad_velocity_sweep.
  destruct (distinct4 _ _ _ _ ND) as (D1 & D2 & D3 & D4 & D5 & D6).
  apply load_lookup.
  pose (own := fun (a b : nat) (p : ptr) (k : nat) =>
                 (p = vx0 \/ p = vy0) /\ k = Z.to_nat (Z.of_nat a + (n + 2) * Z.of_nat b)).
  pose (val := fun (a b : nat) (p : ptr) (k : nat) (m : mem) =>
                 load m (pad_src vx vy vx0 p) (Z.of_nat a + n * Z.of_nat b)).
  rewrite (sweep_value _ _ _ own val) with (a := Z.to_nat i) (b := Z.to_nat j).
  - unfold val. rewrite !Z2Nat.id by lia. reflexivity.
  - intros a b m' q _ _. cbv zeta. now rewrite !store_length.
  - intros a b m' q k _ _ Ho. cbv zeta.
    replace (1 * Z.of_nat a) with (Z.of_nat a) by lia.
    rewrite !store_lookup_ne; [reflexivity | |]; intros [-> ->]; apply Ho; split; auto.
  - intros a b m' q k _ _ [Hq ->] Hk. cbv zeta. unfold val, pad_src.
    replace (1 * Z.of_nat a) with (Z.of_nat a) by lia.
    destruct Hq as [-> | ->].
    + rewrite store_lookup_ne by (intros [? _]; congruence).
      rewrite store_lookup_eq by assumption.
      destruct (decide (vx0 = vx0)); congruence.
    + rewrite store_lookup_eq by (rewrite store_length; assumption).
      rewrite load_store_other by congruence.
      destruct (decide (vy0 = vx0)); congruence.
  - intros a b a' b' q k Ha _ Ha' _ [_ ->] [_ E]. now apply (padded_index_inj n).
  - intros a b q k m1 m2 _ _ _ H. unfold val.
    assert (E : forall q, q <> vx0 -> q <> vy0 -> m1 q = m2 q).
    { intros q' Hx Hy. apply list_eq. intros k'. apply H.
      intros a' b' _ _ [[Hq' | Hq'] _]; congruence. }
    unfold load, pad_src.
    destruct (decide (q = vx0)); [rewrite (E vx) | rewrite (E vy)]; congruence.
  - lia.
  - lia.
  - split; [exact Hp |]. rewrite !Z2Nat.id by lia. reflexivity.
  - assert (0 <= i + (n + 2) * j < (n + 2) * n) by nia. lia.
Qed.

Lemma pad_velocity_padding (n : Z) (vx vy vx0 vy0 : ptr) (m : mem) (p : ptr) (c j : Z) :
  n <= c < n + 2 -> 0 <= j ->
  pad_velocity n vx vy vx0 vy0 m p !! Z.to_nat (c + (n + 2) * j)
  = m p !! Z.to_nat (c + (n + 2) * j).
Proof.
  intros Hc Hj. rewrite pad_velocity_sweep. apply sweep_cell_untouched.
  intros a b m' Ha Hb. cbv zeta.
  replace (1 * Z.of_nat a) with (Z.of_nat a) by lia.
  assert (Hn : 0 < n) by lia.
  assert (N1 : 0 <= (n + 2) * Z.of_nat b) by nia.
  assert (N2 : 0 <= (n + 2) * j) by nia.
  assert (Ne : Z.to_nat (c + (n + 2) * j) <> Z.to_nat (Z.of_nat a + (n + 2) * Z.of_nat b)).
  { intros E.
    destruct (slot_inj (n + 2) c j (Z.of_nat a) (Z.of_nat b)); lia. }
  rewrite !store_lookup_ne; [reflexivity | |]; intros [_ E]; contradiction.
Qed.

(** X2: the copy loop of [solve] puts cell [(i,j)] of the velocity at
    [i + (n+2)*j] of the scratch buffer, leaves the two padding columns of
    every row and the velocity itself as they were. *)
Theorem pad_velocity_layout (n : Z) (vx vy vx0 vy0 : ptr) (m : mem) (i j : Z) :
  NoDup [vx; vy; vx0; vy0] -> 0 <= i < n -> 0 <= j < n ->
  (Z.to_nat ((n + 2) * n) <= length (m vx0))%nat ->
  (Z.to_nat ((n + 2) * n) <= length (m vy0))%nat ->
  let m' := pad_velocity n vx vy vx0 vy0 m in
  load m' vx0 (i + (n + 2) * j) = load m vx (i + n * j) /\
  load m' vy0 (i + (n + 2) * j) = load m vy (i + n * j) /\
  load m' vx0 (n + (n + 2) * j) = load m vx0 (n + (n + 2) * j) /\
  load m' vx0 (n + 1 + (n + 2) * j) = load m vx0 (n + 1 + (n + 2) * j) /\
  m' vx = m vx /\ m' vy = m vy.
Proof.
  intros ND Hi Hj Lx Ly. cbv zeta.
  destruct (distinct4 _ _ _ _ ND) as (D1 & D2 & D3 & D4 & D5 & D6).
  split; [| split; [| split; [| split; [| split]]]].
  - rewrite (pad_velocity_cell n vx vy vx0 vy0 m vx0) by auto.
    unfold pad_src. destruct (decide (vx0 = vx0)); congruence.
  - rewrite (pad_velocity_cell n vx vy vx0 vy0 m vy0) by auto.
    unfold pad_src. destruct (decide (vy0 = vx0)); congruence.
  - unfold load, ld. rewrite pad_velocity_padding by lia. reflexivity.
  - unfold load, ld. rewrite pad_velocity_padding by lia. reflexivity.
  - apply pad_velocity_frame; congruence.
  - apply pad_velocity_frame; congruence.
Qed.

Lemma pad_velocity_layout_witness :
  let m' := pad_velocity 2 Pvx Pvy Pvx0 Pvy0 grid2 in
  load m' Pvx0 (1 + (2 + 2) * 1) = load grid2 Pvx (1 + 2 * 1).
Proof.
  cbv zeta.
  apply (pad_velocity_layout 2 Pvx Pvy Pvx0 Pvy0 grid2 1 1).
  - exact velocity_ptrs_distinct.
  - lia.
  - lia.
  - vm_compute. lia.
  - vm_compute. lia.
Defined.

(** ** What a step leaves alone *)

Lemma normalize_frame (n : Z) (vx vy vx0 vy0 : ptr) (m : mem) (p : ptr) :
  p <> vx -> p <> vy -> normalize n vx vy vx0 vy0 m p = m p.
Proof.
  intros H1 H2. rewrite normalize_sweep. apply sweep_untouched.
  intros a b m'. cbv zeta. now rewrite !store_other.
Qed.

Lemma solve_untouched (L : libs) (prc pcr n : Z) (vx vy vx0 vy0 : ptr) (visc dt : Q)
    (m : mem) (p : ptr) :
  p <> vx -> p <> vy -> p <> vx0 -> p <> vy0 ->
  solve L prc pcr n vx vy vx0 vy0 visc dt m p = m p.
Proof.
  intros H1 H2 H3 H4. unfold solve, spectral_step. cbv zeta.
  rewrite normalize_frame by assumption.
  rewrite !FFT_other by assumption.
  rewrite project_frame by assumption.
  rewrite !FFT_other by assumption.
  rewrite pad_velocity_frame by assumption.
  rewrite advect_velocity_frame by assumption.
  now apply add_forces_frame.
Qed.

(** X3: [solve] writes the four velocity arrays it is given and no other
    array: forces and densities are untouched, whatever the transforms
    and [exp] return. *)
Theorem solve_frame (L : libs) (prc pcr n : Z) (vx vy vx0 vy0 : ptr) (visc dt : Q)
    (m : mem) (p : ptr) :
  p <> vx -> p <> vy -> p <> vx0 -> p <> vy0 ->
  solve L prc pcr n vx vy vx0 vy0 visc dt m p = m p.
Proof. apply solve_untouched. Qed.

Lemma solve_frame_witness :
  solve libs2 2 2 2 Pvx Pvy Pvx0 Pvy0 0 1 grid2 Prho0 = grid2 Prho0.
Proof.
  apply (solve_frame libs2 2 2 2 Pvx Pvy Pvx0 Pvy0 0 1 grid2 Prho0); discriminate.
Defined.

Lemma set_forces_length (m : mem) (p : ptr) : length (set_forces m p) = length (m p).
Proof.
  rewrite set_forces_sweep. apply sweep_length_preserved.
  intros a b m'. cbv zeta. now rewrite !store_length.
Qed.

Lemma step_forces (L : libs) (s : state) (p : ptr) :
  frozen s = 0 -> p = Pfx \/ p = Pfy \/ p = Prho0 ->
  bufs (do_one_simulation_step L s) p = set_forces (bufs s) p.
Proof.
  intros Hf Hp. unfold do_one_simulation_step. rewrite Hf. simpl.
  rewrite diffuse_matter_frame by (destruct Hp as [-> | [-> | ->]]; discriminate).
  apply solve_untouched; destruct Hp as [-> | [-> | ->]]; discriminate.
Qed.

Lemma load_ext (m m' : mem) (p : ptr) (i : Z) :
  m p = m' p -> load m p i = load m' p i.
Proof. unfold load. now intros ->. Qed.

Lemma step_frozen (L : libs) (s : state) :
  frozen (do_one_simulation_step L s) = frozen s.
Proof.
  unfold do_one_simulation_step. destruct (Z.eqb (frozen s) 0); reflexivity.
Qed.

Lemma run_frozen (L : libs) (k : nat) (s : state) : frozen (run L k s) = frozen s.
Proof.
  induction k as [| k IH]; [reflexivity |].
  unfold run in *. simpl. now rewrite step_frozen.
Qed.

Lemma force_decays_once (m : mem) (p : ptr) (i : Z) :
  p = Pfx \/ p = Pfy -> 0 <= i < DIM * DIM ->
  (Z.to_nat (DIM * DIM) <= length (m p))%nat ->
  load (set_forces m) p i = (load m p i * decay_force)%Q.
Proof.
  intros Hp Hi Hlen. apply load_lookup.
  rewrite set_forces_lookup by (try lia; destruct Hp as [-> | ->]; auto).
  f_equal. unfold load, ld.
  destruct (m p !! Z.to_nat i) eqn:E.
  - destruct Hp as [-> | ->]; unfold set_forces_val; now rewrite E.
  - apply lookup_ge_None in E. lia.
Qed.

(** X4: a running step leaves of the force field exactly its decay: no
    phase but [set_forces] touches [fx], [fy], so after [k] steps every
    force component is [0.85^k] times what it was -- a force never
    becomes zero by decay. *)
Theorem force_decay_never_zero (L : libs) (k : nat) (s : state) (p : ptr) (i : Z) :
  frozen s = 0 -> p = Pfx \/ p = Pfy -> 0 <= i < DIM * DIM ->
  (Z.to_nat (DIM * DIM) <= length (bufs s p))%nat ->
  (load (bufs (run L k s)) p i == load (bufs s) p i * decay_force ^ Z.of_nat k)%Q /\
  (~ (load (bufs s) p i == 0)%Q -> ~ (load (bufs (run L k s)) p i == 0)%Q).
Proof.
  intros Hf Hp Hi Hlen.
  assert (Hq : p = Pfx \/ p = Pfy \/ p = Prho0) by (destruct Hp; auto).
  assert (M : (Z.to_nat (DIM * DIM) <= length (bufs (run L k s) p))%nat /\
              (load (bufs (run L k s)) p i
               == load (bufs s) p i * decay_force ^ Z.of_nat k)%Q).
  { induction k as [| k [IL IH]].
    - split; [exact Hlen |]. simpl. ring.
    - unfold run in *. simpl Nat.iter.
      pose proof (run_frozen L k s) as Fk. unfold run in Fk.
      pose proof (step_forces L (Nat.iter k (do_one_simulation_step L) s) p
                    ltac:(congruence) Hq) as Hs.
      split.
      + now rewrite Hs, set_forces_length.
      + rewrite (load_ext _ _ p i Hs).
        rewrite force_decays_once by assumption.
        rewrite IH, Nat2Z.inj_succ. unfold Z.succ.
        rewrite Qpower_plus by discriminate. simpl (decay_force ^ 1)%Q. ring. }
  destruct M as [_ M]. split; [exact M |].
  intros Hne. rewrite M. intros E.
  apply Qmult_integral in E. destruct E as [E | E]; [contradiction |].
  revert E. apply Qpower_not_0. discriminate.
Qed.

Lemma force_decay_never_zero_witness :
  (load (bufs (run libs2 3 running_state)) Pfx 7
   == load (bufs running_state) Pfx 7 * decay_force ^ Z.of_nat 3)%Q.
Proof.
  apply (force_decay_never_zero libs2 3 running_state Pfx 7).
  - reflexivity.
  - now left.
  - unfold DIM. lia.
  - apply Nat.leb_le. vm_compute. reflexivity.
Defined.

(** ** The frequency loop applied twice *)

Lemma projected_twice (f x y U V : Q) :
  ~ (x * x + y * y == 0)%Q ->
  let r := (x * x + y * y)%Q in
  let U' := (f * ((1 - x * x / r) * U - x * y / r * V))%Q in
  let V' := (f * (- y * x / r * U + (1 - y * y / r) * V))%Q in
  (f * ((1 - x * x / r) * U' - x * y / r * V') == f * U')%Q /\
  (f * (- y * x / r * U' + (1 - y * y / r) * V') == f * V')%Q.
Proof. intros Hr. cbv zeta. split; field; exact Hr. Qed.

Lemma project_val_twice (L : libs) (n : Z) (vx0 vy0 : ptr) (visc dt : Q)
    (a b : nat) (kx j : Z) (k : nat) (m m1 : mem) :
  kx = Z.of_nat a -> j = Z.of_nat b -> vx0 <> vy0 ->
  ~ (inject_Z kx * inject_Z kx + fold_freq n j * fold_freq n j == 0)%Q ->
  default 0%Q (m1 vx0 !! k) = project_val L n vx0 vy0 visc dt a b vx0 k m ->
  default 0%Q (m1 vy0 !! k) = project_val L n vx0 vy0 visc dt a b vy0 k m ->
  (project_val L n vx0 vy0 visc dt a b vx0 k m1
   == bin_damping L n visc dt kx j
      * project_val L n vx0 vy0 visc dt a b vx0 k m)%Q /\
  (project_val L n vx0 vy0 visc dt a b vy0 k m1
   == bin_damping L n visc dt kx j
      * project_val L n vx0 vy0 visc dt a b vy0 k m)%Q.
Proof.
  intros -> -> D Hr Ex Ey.
  unfold project_val at 1 3. cbv zeta. rewrite Ex, Ey.
  unfold project_val, bin_damping. cbv zeta.
  set (ky := fold_freq n (Z.of_nat b)) in *.
  set (x := (half * inject_Z (2 * Z.of_nat a))%Q).
  assert (X : (x == inject_Z (Z.of_nat a))%Q) by apply half_double.
  assert (Hr' : ~ (x * x + ky * ky == 0)%Q) by (rewrite X; exact Hr).
  destruct (Qeq_bool (x * x + ky * ky) 0) eqn:E.
  { apply Qeq_bool_iff in E. contradiction. }
  destruct (decide (vx0 = vx0)); [| congruence].
  destruct (decide (vy0 = vx0)); [congruence |].
  now apply projected_twice.
Qed.

(** X5: the per-bin update is a projection followed by a scaling: running
    the frequency loop a second time only scales each non-zero-frequency
    coefficient by its damping factor once more (with factor 1, i.e. zero
    viscosity, the loop is idempotent). *)
Theorem project_twice (L : libs) (n : Z) (vx0 vy0 : ptr) (visc dt : Q)
    (m : mem) (kx j s : Z) :
  vx0 <> vy0 -> 0 <= kx <= n / 2 -> 0 <= j < n -> s = 0 \/ s = 1 ->
  (Z.to_nat ((n + 2) * n) <= length (m vx0))%nat ->
  (Z.to_nat ((n + 2) * n) <= length (m vy0))%nat ->
  ~ (inject_Z kx * inject_Z kx + fold_freq n j * fold_freq n j == 0)%Q ->
  (load (project L n vx0 vy0 visc dt (project L n vx0 vy0 visc dt m)) vx0
     (2 * kx + s + (n + 2) * j)
   == bin_damping L n visc dt kx j
      * load (project L n vx0 vy0 visc dt m) vx0 (2 * kx + s + (n + 2) * j))%Q /\
  (load (project L n vx0 vy0 visc dt (project L n vx0 vy0 visc dt m)) vy0
     (2 * kx + s + (n + 2) * j)
   == bin_damping L n visc dt kx j
      * load (project L n vx0 vy0 visc dt m) vy0 (2 * kx + s + (n + 2) * j))%Q.
Proof.
  intros D Hk Hj Hs Lx Ly Hr.
  destruct (project_bin_values L n vx0 vy0 visc dt m kx j s D Hk Hj Hs Lx Ly)
    as [E1x E1y].
  assert (Lx1 : (Z.to_nat ((n + 2) * n)
                 <= length (project L n vx0 vy0 visc dt m vx0))%nat)
    by now rewrite project_length.
  assert (Ly1 : (Z.to_nat ((n + 2) * n)
                 <= length (project L n vx0 vy0 visc dt m vy0))%nat)
    by now rewrite project_length.
  destruct (project_bin_values L n vx0 vy0 visc dt _ kx j s D Hk Hj Hs Lx1 Ly1)
    as [E2x E2y].
  rewrite E2x, E2y, E1x, E1y.
  apply project_val_twice; try assumption; lia.
Qed.

Lemma project_twice_witness :
  (load (project libs2 2 Pvx0 Pvy0 0 1 (project libs2 2 Pvx0 Pvy0 0 1 grid2)) Pvx0
     (2 * 1 + 0 + (2 + 2) * 1)
   == bin_damping libs2 2 0 1 1 1
      * load (project libs2 2 Pvx0 Pvy0 0 1 grid2) Pvx0 (2 * 1 + 0 + (2 + 2) * 1))%Q.
Proof.
  refine (proj1 (project_twice libs2 2 Pvx0 Pvy0 0 1 grid2 1 1 0 _ _ _ _ _ _ _)).
  - discriminate.
  - split; [lia | vm_compute; discriminate].
  - lia.
  - now left.
  - vm_compute. lia.
  - vm_compute. lia.
  - vm_compute. discriminate.
Defined.

(** ** Rest *)

(** On a grid whose size is a power of two the coordinates of the
    advection loops are the cell centres. *)
Lemma coord_pow2 (n k i : Z) :
  n = 2 ^ k -> 0 <= k <= 23 -> 0 <= i ->
  (inject_Z n * coord n i == inject_Z i + half)%Q.
Proof.
  intros -> Hk Hi.
  assert (B : 0 < 2 ^ k <= 2 ^ 23).
  { split; [apply Z.pow_pos_nonneg; lia | apply Z.pow_le_mono_r; lia]. }
  unfold coord, coord_first, coord_step.
  rewrite acc_value, Z2Nat.id by assumption.
  rewrite (f32_Z (inject_Z (2 ^ k)) (2 ^ k) (Qeq_refl _)) by lia.
  pose proof (pow2_inject k ltac:(lia)) as N. rewrite <- N.
  pose proof (pow2_pos k) as P.
  pose proof (pow2_plus (-1 - k) k) as S1.
  replace (-1 - k + k) with (-1) in S1 by lia.
  pose proof (pow2_plus (- k) k) as S2. rewrite Z.add_opp_diag_l in S2.
  change (pow2 (-1)) with (1 # 2)%Q in S1. change (pow2 0) with 1%Q in S2.
  assert (E1 : (half / pow2 k == pow2 (-1 - k))%Q).
  { apply (Qmult_inj_r _ _ (pow2 k)); [lra |]. rewrite <- S1. unfold half. field. lra. }
  assert (E2 : (1 / pow2 k == pow2 (- k))%Q).
  { apply (Qmult_inj_r _ _ (pow2 k)); [lra |]. rewrite <- S2. field. lra. }
  rewrite (f32_pow2 _ _ E1), (f32_pow2 _ _ E2) by lia.
  unfold half.
  transitivity (pow2 (-1 - k) * pow2 k + inject_Z i * (pow2 (- k) * pow2 k))%Q; [ring |].
  rewrite <- S1, <- S2. ring.
Qed.

Lemma clamp_bilinear_on_cell (n : Z) (a : list Q) (px py : Q) (i j : Z) :
  n <= 2 ^ 23 -> 0 <= i < n -> 0 <= j < n ->
  (px == inject_Z i)%Q -> (py == inject_Z j)%Q ->
  (clamp_bilinear n a px py == ld a (i + n * j))%Q.
Proof.
  intros Hn Hi Hj Ex Ey. unfold clamp_bilinear. cbv zeta.
  rewrite (clamp_Z_nonneg px i Ex), (clamp_Z_nonneg py j Ey) by lia.
  rewrite (Z.mod_small i n), (Z.mod_small j n) by lia.
  rewrite Ex, Ey. ring.
Qed.

(** X7: on a grid whose size is a power of two (up to [2^23]), where the
    backtrace does not move ([dt] times the velocity at the cell is zero
    on both axes, in particular when [dt = 0] or the fluid is at rest),
    [diffuse_matter] copies the cell of [rho0] into [rho] unchanged.  For
    other sizes the loop coordinates are rounded and the cell is blended
    with its neighbours. *)
Theorem diffuse_matter_at_rest_copies (n k : Z) (vx vy rho rho0 : ptr) (dt : Q)
    (m : mem) (i j : Z) :
  n = 2 ^ k -> 0 <= k <= 23 ->
  rho <> vx -> rho <> vy -> rho <> rho0 ->
  0 <= i < n -> 0 <= j < n -> (Z.to_nat (n * n) <= length (m rho))%nat ->
  (dt * load m vx (i + n * j) == 0)%Q -> (dt * load m vy (i + n * j) == 0)%Q ->
  (load (diffuse_matter n vx vy rho rho0 dt m) rho (i + n * j)
   == load m rho0 (i + n * j))%Q.
Proof.
  intros En Hk H1 H2 H3 Hi Hj Hlen Hu Hv.
  assert (B : n <= 2 ^ 23) by (subst n; apply Z.pow_le_mono_r; lia).
  rewrite diffuse_matter_cell by assumption.
  rewrite interp_backtrace_clamp by lia.
  apply clamp_bilinear_on_cell; try assumption.
  - unfold back.
    assert (E : (inject_Z n * (coord n i - dt * load m vx (i + n * j)) - half
                 == inject_Z n * coord n i - inject_Z n * (dt * load m vx (i + n * j)) - half)%Q)
      by ring.
    rewrite E, Hu, (coord_pow2 n k i En Hk) by lia. ring.
  - unfold back.
    assert (E : (inject_Z n * (coord n j - dt * load m vy (i + n * j)) - half
                 == inject_Z n * coord n j - inject_Z n * (dt * load m vy (i + n * j)) - half)%Q)
      by ring.
    rewrite E, Hv, (coord_pow2 n k j En Hk) by lia. ring.
Qed.

Lemma diffuse_matter_at_rest_copies_witness :
  (load (diffuse_matter 2 Pvx0 Pvy0 Prho Prho0 0 grid2) Prho (1 + 2 * 1)
   == load grid2 Prho0 (1 + 2 * 1))%Q.
Proof.
  refine (diffuse_matter_at_rest_copies 2 1 Pvx0 Pvy0 Prho Prho0 0 grid2 1 1
            _ _ _ _ _ _ _ _ _ _);
    try discriminate; try lia; try reflexivity.
Defined.

(** ** Initialisation *)

(** X8: for an even grid size [n > 0], [init_simulation(n)] leaves the
    simulation ready for [solve]: the four velocity arrays hold exactly the
    padded layout of [n*(n+2)] elements and the others [n*n], every grid
    cell of every array is zero, both plans are for size [n], and the
    parameters are untouched. *)
Theorem init_simulation_ready (junk : ptr -> nat -> Q) (n : Z) (s : state) :
  0 < n -> Z.rem n 2 = 0 ->
  let s' := init_simulation junk n s in
  (forall p, length (bufs s' p)
             = match p with
               | Pvx | Pvy | Pvx0 | Pvy0 => Z.to_nat ((n + 2) * n)
               | _ => Z.to_nat (n * n)
               end) /\
  (forall p k, 0 <= k < n * n -> load (bufs s') p k = 0%Q) /\
  plan_rc s' = n /\ plan_cr s' = n /\
  dt s' = dt s /\ visc s' = visc s /\ frozen s' = frozen s.
Proof.
  intros Hn He. cbv zeta. split; [| split; [| repeat split]].
  - intros p.
    destruct p;
      try (apply init_simulation_padded_length; auto);
      unfold init_simulation, bufs; now rewrite zero_fill_length, allocate_length.
  - intros p k Hk. now apply init_simulation_zeroes_grid.
Qed.

Lemma init_simulation_ready_witness :
  load (bufs (init_simulation junk_ones DIM paused_state)) Prho 1234 = 0%Q.
Proof.
  refine (proj1 (proj2 (init_simulation_ready junk_ones DIM paused_state _ _)) Prho 1234 _).
  - unfold DIM. lia.
  - reflexivity.
  - unfold DIM. lia.
Defined.

(** X9: with 32-bit [int]s and [0 < n <= 46340] (so that [n*n] fits) no
    step of the index arithmetic of the advection loops overflows:
    [i0%n], [n+(i0%n)], the wrapped index plus one, [n*j] and the cell
    index all stay in the range of [int]. *)
Theorem index_arithmetic_fits_int (n i0 j0 : Z) :
  0 < n <= 46340 -> int_range i0 -> int_range j0 ->
  int_range (Z.rem i0 n) /\ int_range (n + Z.rem i0 n) /\
  int_range (wrap n i0 + 1) /\
  int_range (n * wrap n j0) /\ int_range (n * succ_wrap n (wrap n j0)) /\
  int_range (wrap n i0 + n * wrap n j0) /\
  int_range (succ_wrap n (wrap n i0) + n * succ_wrap n (wrap n j0)).
Proof.
  intros Hn Hi Hj.
  destruct (wrap_no_overflow n i0 Hn Hi) as (A & B & C & _).
  pose proof (wrap_range n i0 ltac:(lia)) as Wi.
  pose proof (wrap_range n j0 ltac:(lia)) as Wj.
  pose proof (succ_wrap_range n _ ltac:(lia) Wi) as Si.
  pose proof (succ_wrap_range n _ ltac:(lia) Wj) as Sj.
  repeat split; try assumption; unfold int_range in *; try apply A; nia.
Qed.

Lemma index_arithmetic_fits_int_witness :
  int_range (wrap 50 (-7) + 50 * wrap 50 123).
Proof.
  refine (proj1 (proj2 (proj2 (proj2 (proj2 (proj2
            (index_arithmetic_fits_int 50 (-7) 123 _ _ _))))))).
  - lia.
  - unfold int_range. lia.
  - unfold int_range. lia.
Defined.

(** * The visualization helpers *)

(** X10: for [0 <= x < max], [rotational_increment] is the successor
    modulo [max]: it stays in [0, max) and wraps from [max-1] to [0]. *)
Theorem rotational_increment_mod (x max : Z) :
  0 <= x < max ->
  rotational_increment x max = (x + 1) mod max /\
  0 <= rotational_increment x max < max.
Proof.
  intros H. unfold rotational_increment.
  destruct (Z.leb_spec max (x + 1)) as [L | L].
  - assert (E : x + 1 = max) by lia. rewrite E, Z_mod_same_full. lia.
  - rewrite Z.mod_small by lia. lia.
Qed.

Lemma rotational_increment_mod_witness :
  rotational_increment 3 4 = (3 + 1) mod 4.
Proof.
  refine (proj1 (rotational_increment_mod 3 4 _)). lia.
Defined.

(** X11: on a non-degenerate rectangle [BilinearInterpolation] returns at
    each corner the value given for it -- [q11] at [(x1,y1)], [q21] at
    [(x2,y1)], [q12] at [(x1,y2)], [q22] at [(x2,y2)] -- and reproduces a
    constant field at every point. *)
Theorem bilinear_corners (q11 q12 q21 q22 x1 x2 y1 y2 : Q) :
  ~ (x1 == x2)%Q -> ~ (y1 == y2)%Q ->
  (BilinearInterpolation q11 q12 q21 q22 x1 x2 y1 y2 x1 y1 == q11)%Q /\
  (BilinearInterpolation q11 q12 q21 q22 x1 x2 y1 y2 x2 y1 == q21)%Q /\
  (BilinearInterpolation q11 q12 q21 q22 x1 x2 y1 y2 x1 y2 == q12)%Q /\
  (BilinearInterpolation q11 q12 q21 q22 x1 x2 y1 y2 x2 y2 == q22)%Q /\
  forall c x y : Q, (BilinearInterpolation c c c c x1 x2 y1 y2 x y == c)%Q.
Proof.
  intros Hx Hy.
  assert (Dx : ~ (x2 - x1 == 0)%Q) by (intros E; apply Hx; lra).
  assert (Dy : ~ (y2 - y1 == 0)%Q) by (intros E; apply Hy; lra).
  unfold BilinearInterpolation. cbv zeta.
  repeat split; try intros c x y; field; split; assumption.
Qed.

Lemma bilinear_corners_witness :
  (BilinearInterpolation 1 2 3 4 0 1 0 1 1 0 == 3)%Q.
Proof.
  refine (proj1 (proj2 (bilinear_corners 1 2 3 4 0 1 0 1 _ _))); discriminate.
Defined.

(** ** Sampling the field for the glyphs *)

Lemma Qceiling_nonint (p : Q) :
  ~ (inject_Z (Qfloor p) == p)%Q -> Qceiling p = Qfloor p + 1.
Proof.
  intros H. destruct (Qfloor_bounds p) as [F1 F2].
  assert (F1' : (inject_Z (Qfloor p) < p)%Q).
  { apply Qle_lteq in F1. destruct F1 as [F1 | F1]; [assumption | contradiction]. }
  unfold Qceiling. rewrite (Qfloor_unique (- p) (- Qfloor p - 1)); [lia | |].
  - unfold Z.sub. rewrite inject_Z_plus, !inject_Z_opp.
    change (inject_Z 1) with 1%Q. lra.
  - unfold Z.sub. rewrite inject_Z_plus, !inject_Z_opp.
    change (inject_Z 1) with 1%Q. lra.
Qed.

Lemma step_position_bounds (vd i : Z) :
  0 < vd <= DIM -> 0 <= i < vd ->
  (0 <= inject_Z DIM / inject_Z vd * inject_Z i <= inject_Z (DIM - 1))%Q.
Proof.
  intros Hv Hi.
  assert (Pv : (0 < inject_Z vd)%Q).
  { change 0%Q with (inject_Z 0). rewrite <- Zlt_Qlt. lia. }
  assert (E : (inject_Z DIM / inject_Z vd * inject_Z i
               == inject_Z (DIM * i) / inject_Z vd)%Q).
  { rewrite inject_Z_mult. field. lra. }
  rewrite E. split.
  - apply Qle_shift_div_l; [exact Pv |]. rewrite Qmult_0_l.
    change 0%Q with (inject_Z 0). rewrite <- Zle_Qle. unfold DIM. lia.
  - apply Qle_shift_div_r; [exact Pv |]. rewrite <- inject_Z_mult.
    rewrite <- Zle_Qle. unfold DIM in *. lia.
Qed.

Lemma floor_ceiling_range (p : Q) (hi : Z) :
  (0 <= p <= inject_Z hi)%Q ->
  0 <= Qfloor p <= hi /\ 0 <= Qceiling p <= hi.
Proof.
  intros [H0 H1]. change 0%Q with (inject_Z 0) in H0.
  pose proof (Qfloor_resp_le _ _ H0) as A. pose proof (Qfloor_resp_le _ _ H1) as B.
  pose proof (Qceiling_resp_le _ _ H0) as C. pose proof (Qceiling_resp_le _ _ H1) as D.
  rewrite Qfloor_Z in A, B. rewrite Qceiling_Z in C, D. lia.
Qed.

(** X12: while the glyph grid is no finer than the simulation grid
    ([0 < vector_dim <= DIM] on both axes), every array subscript
    [visualize] evaluates for a glyph -- the four interpolation corners
    and the direct index -- lies inside the [DIM*DIM] field. *)
Theorem sample_reads_in_bounds (vdx vdy i j : Z) :
  0 < vdx <= DIM -> 0 < vdy <= DIM -> 0 <= i < vdx -> 0 <= j < vdy ->
  Forall (fun k => 0 <= k < DIM * DIM) (sample_reads vdx vdy i j).
Proof.
  intros Hvx Hvy Hi Hj.
  pose proof (step_position_bounds vdx i Hvx Hi) as Px.
  pose proof (step_position_bounds vdy j Hvy Hj) as Py.
  destruct (floor_ceiling_range _ _ Px) as [Fx Cx].
  destruct (floor_ceiling_range _ _ Py) as [Fy Cy].
  unfold sample_reads. cbv zeta.
  set (p := (inject_Z DIM / inject_Z vdx * inject_Z i)%Q) in *.
  set (q := (inject_Z DIM / inject_Z vdy * inject_Z j)%Q) in *.
  apply Forall_app. split.
  - repeat constructor; unfold DIM in *; lia.
  - destruct (Qeq_bool (inject_Z (Qfloor p)) p || Qeq_bool (inject_Z (Qfloor q)) q);
      [| constructor].
    constructor; [| constructor].
    assert (W : (0 <= q * inject_Z DIM + p <= inject_Z (DIM * DIM - 1))%Q).
    { destruct Px as [Px0 Px1]. destruct Py as [Py0 Py1].
      change (inject_Z (DIM - 1)) with (49 # 1) in *.
      change (inject_Z (DIM * DIM - 1)) with (2499 # 1).
      change (inject_Z DIM) with (50 # 1). lra. }
    rewrite Qtrunc_nonneg by apply W.
    destruct (floor_ceiling_range _ _ W) as [Fw _]. lia.
Qed.

Lemma sample_reads_in_bounds_witness :
  Forall (fun k => 0 <= k < DIM * DIM) (sample_reads 30 50 29 49).
Proof.
  apply (sample_reads_in_bounds 30 50 29 49); unfold DIM; lia.
Defined.

(** With more glyphs than cells the corners leave the field: the last
    glyph of a 60 x 60 grid reads element 2550 of a [DIM*DIM] array. *)
Example sample_reads_finer_grid : In 2550 (sample_reads 60 60 59 59).
Proof. vm_compute. auto. Qed.

(** X13: where [visualize] interpolates (neither glyph coordinate falls
    on a grid line) the cell is a unit cell, so the normalisation divides
    by 1; the y component is the bilinear interpolation of the four
    corners with offsets [(s,t)], while the x component is called with
    the corner values diagonally swapped, i.e. it is the interpolation at
    the mirrored offsets [(1-s, 1-t)]. *)
Theorem sample_vector_weights (vvx vvy : list Q) (vdx vdy i j : Z) :
  let p := (inject_Z DIM / inject_Z vdx * inject_Z i)%Q in
  let q := (inject_Z DIM / inject_Z vdy * inject_Z j)%Q in
  let fx := Qfloor p in
  let fy := Qfloor q in
  let s := (p - inject_Z fx)%Q in
  let t := (q - inject_Z fy)%Q in
  ~ (inject_Z fx == p)%Q -> ~ (inject_Z fy == q)%Q ->
  Qceiling p - fx = 1 /\ Qceiling q - fy = 1 /\
  (snd (sample_vector vvx vvy vdx vdy i j)
   == (1 - s) * (1 - t) * ld vvy (fy * DIM + fx)
      + s * (1 - t) * ld vvy (fy * DIM + (fx + 1))
      + (1 - s) * t * ld vvy ((fy + 1) * DIM + fx)
      + s * t * ld vvy ((fy + 1) * DIM + (fx + 1)))%Q /\
  (fst (sample_vector vvx vvy vdx vdy i j)
   == s * t * ld vvx (fy * DIM + fx)
      + (1 - s) * t * ld vvx (fy * DIM + (fx + 1))
      + s * (1 - t) * ld vvx ((fy + 1) * DIM + fx)
      + (1 - s) * (1 - t) * ld vvx ((fy + 1) * DIM + (fx + 1)))%Q.
Proof.
  intros p q fx fy s t Hp Hq.
  pose proof (Qceiling_nonint p Hp) as Cp.
  pose proof (Qceiling_nonint q Hq) as Cq.
  fold fx in Cp. fold fy in Cq.
  split; [lia |]. split; [lia |].
  unfold sample_vector. cbv zeta. fold p q. fold fx fy. rewrite Cp, Cq.
  assert (Bp : Qeq_bool (inject_Z fx) p = false).
  { destruct (Qeq_bool (inject_Z fx) p) eqn:E; [| reflexivity].
    apply Qeq_bool_iff in E. contradiction. }
  assert (Bq : Qeq_bool (inject_Z fy) q = false).
  { destruct (Qeq_bool (inject_Z fy) q) eqn:E; [| reflexivity].
    apply Qeq_bool_iff in E. contradiction. }
  rewrite Bp, Bq. simpl orb. cbv iota. unfold fst, snd.
  unfold BilinearInterpolation. cbv zeta. unfold s, t.
  rewrite !inject_Z_plus. change (inject_Z 1) with 1%Q.
  split; field; lra.
Qed.

Lemma sample_vector_weights_witness :
  Qceiling (inject_Z DIM / inject_Z 30 * inject_Z 7)
  - Qfloor (inject_Z DIM / inject_Z 30 * inject_Z 7) = 1.
Proof.
  refine (proj1 (sample_vector_weights [] [] 30 30 7 7 _ _)); vm_compute; discriminate.
Defined.

(** ** Colours *)

Lemma cmax_is_max : is_max cmax.
Proof.
  intros a b. unfold cmax. destruct (Qle_bool a b) eqn:E.
  - apply Qle_bool_iff in E. split; [lra | split; [lra | right; reflexivity]].
  - assert (~ (a <= b)%Q) by (rewrite <- Qle_bool_iff; congruence).
    split; [lra | split; [lra | left; reflexivity]].
Qed.

Lemma abs_pair (v a b : Q) : (b - a <= Qabs (v - a) + Qabs (v - b))%Q.
Proof.
  apply (Qabs_case (v - a)); intros Ha; apply (Qabs_case (v - b)); intros Hb; lra.
Qed.

Lemma tent_range (max_ : Q -> Q -> Q) (k v a b : Q) :
  is_max max_ -> (k - (b - a) == 2)%Q ->
  (0 <= max_ 0 ((k - Qabs (v - a) - Qabs (v - b)) / 2) <= 1)%Q.
Proof.
  intros M Hk. pose proof (abs_pair v a b) as P.
  destruct (M 0%Q ((k - Qabs (v - a) - Qabs (v - b)) / 2)%Q) as (M1 & M2 & [E | E]).
  - rewrite E. lra.
  - split; [exact M1 |]. rewrite E.
    apply Qle_shift_div_r; [reflexivity | lra].
Qed.

(** X14: whatever [value] is passed, [rainbow] writes three channels in
    [0,1]. *)
Theorem rainbow_range (max_ : Q -> Q -> Q) (value : Q) :
  is_max max_ ->
  let '(R, G, B) := rainbow max_ value in
  (0 <= R <= 1)%Q /\ (0 <= G <= 1)%Q /\ (0 <= B <= 1)%Q.
Proof.
  intros M. unfold rainbow. cbv zeta.
  repeat split; apply tent_range; try exact M; reflexivity.
Qed.

Lemma rainbow_range_witness :
  let '(R, G, B) := rainbow cmax (7 # 2) in
  (0 <= R <= 1)%Q /\ (0 <= G <= 1)%Q /\ (0 <= B <= 1)%Q.
Proof. exact (rainbow_range cmax (7 # 2) cmax_is_max). Defined.

Lemma hue_case_range (h : Q) :
  (0 <= h <= 1)%Q ->
  0 <= Qtrunc (h * 6) <= 6 /\
  (0 <= 6 * h - inject_Z (Qtrunc (h * 6)) < 1)%Q.
Proof.
  intros H. rewrite Qtrunc_nonneg by lra.
  destruct (Qfloor_bounds (h * 6)) as [F1 F2].
  assert (W : (0 <= h * 6 <= inject_Z 6)%Q) by (change (inject_Z 6) with (6 # 1); lra).
  destruct (floor_ceiling_range _ _ W) as [Fw _].
  split; [exact Fw | lra].
Qed.

Lemma shade_range (v s f : Q) :
  (0 <= v)%Q -> (0 <= s <= 1)%Q -> (0 <= f <= 1)%Q ->
  (v * (1 - s) <= v * (1 - s * f) <= v)%Q.
Proof.
  intros Hv Hs Hf.
  assert (A : (0 <= v * s * (1 - f))%Q).
  { apply Qmult_le_0_compat; [apply Qmult_le_0_compat |]; lra. }
  assert (B : (0 <= v * s * f)%Q).
  { apply Qmult_le_0_compat; [apply Qmult_le_0_compat |]; lra. }
  assert (E1 : (v * (1 - s * f) == v * (1 - s) + v * s * (1 - f))%Q) by ring.
  assert (E2 : (v * (1 - s * f) == v - v * s * f)%Q) by ring.
  split.
  - rewrite E1. lra.
  - rewrite E2. lra.
Qed.

(** X15: for a hue in [0,1], a saturation in [0,1] and a value [v >= 0],
    [hsv2rgb] writes all three channels, each between [v*(1-s)] and [v],
    and at least one of them is [v]. *)
Theorem hsv2rgb_range (c : rgb) (h s v : Q) :
  (0 <= h <= 1)%Q -> (0 <= s <= 1)%Q -> (0 <= v)%Q ->
  let '(r, g, b) := hsv2rgb c h s v in
  (v * (1 - s) <= r <= v)%Q /\ (v * (1 - s) <= g <= v)%Q /\
  (v * (1 - s) <= b <= v)%Q /\ (r = v \/ g = v \/ b = v).
Proof.
  intros Hh Hs Hv. destruct (hue_case_range h Hh) as [Hc Hf].
  unfold hsv2rgb. cbv zeta.
  set (hc := Qtrunc (h * 6)) in *.
  set (f := (6 * h - inject_Z hc)%Q) in *.
  pose proof (shade_range v s f Hv Hs ltac:(lra)) as Ly.
  pose proof (shade_range v s (1 - f) Hv Hs ltac:(lra)) as Lz.
  pose proof (shade_range v s 1 Hv Hs ltac:(lra)) as Lx.
  assert (Ex : (v * (1 - s * 1) == v * (1 - s))%Q) by ring.
  rewrite Ex in Lx.
  assert (Top : (v * (1 - s) <= v <= v)%Q) by lra.
  assert (K : hc = 0 \/ hc = 1 \/ hc = 2 \/ hc = 3 \/ hc = 4 \/ hc = 5 \/ hc = 6) by lia.
  destruct K as [-> | [-> | [-> | [-> | [-> | [-> | ->]]]]]]; cbv iota beta;
    repeat split; try apply Ly; try apply Lz; try apply Lx; try apply Top; auto.
Qed.

Lemma hsv2rgb_range_witness :
  let '(r, g, b) := hsv2rgb (9, 9, 9)%Q (7 # 10) (1 # 2) (3 # 4) in
  ((3 # 4) * (1 - (1 # 2)) <= r <= 3 # 4)%Q /\ ((3 # 4) * (1 - (1 # 2)) <= g <= 3 # 4)%Q /\
  ((3 # 4) * (1 - (1 # 2)) <= b <= 3 # 4)%Q /\ (r = (3 # 4)%Q \/ g = (3 # 4)%Q \/ b = (3 # 4)%Q).
Proof.
  apply (hsv2rgb_range (9, 9, 9)%Q (7 # 10) (1 # 2) (3 # 4));
    first [discriminate | split; discriminate].
Defined.

(** X16: a hue of [7/6] or more selects no case: [hsv2rgb] writes nothing
    and the caller's [r], [g], [b] keep what they held.  This is what
    colouring by density (method 2 of [scalar_to_color], which passes
    the first density cell as hue and has not initialised them) meets
    once that cell holds 10, as after a drag over it. *)
Theorem hsv2rgb_large_hue (c : rgb) (h s v : Q) (atan2_ : Q -> Q -> Q) (m : mem) (x y : Q) :
  (7 # 6 <= h)%Q ->
  hsv2rgb c h s v = c /\
  ((7 # 6 <= load m Prho 0)%Q -> scalar_to_color atan2_ c m x y 2 = c).
Proof.
  intros Hh.
  assert (G : forall h', (7 # 6 <= h')%Q -> forall s' v', hsv2rgb c h' s' v' = c).
  { intros h' H' s' v'. unfold hsv2rgb. cbv zeta.
    assert (T : 7 <= Qtrunc (h' * 6)).
    { rewrite Qtrunc_nonneg by lra.
      assert (W : (inject_Z 7 <= h' * 6)%Q) by (change (inject_Z 7) with (7 # 1); lra).
      pose proof (Qfloor_resp_le _ _ W) as F. now rewrite Qfloor_Z in F. }
    destruct (Qtrunc (h' * 6)) as [| hc | hc]; try lia.
    do 3 (destruct hc as [hc | hc |]; try lia; try reflexivity). }
  split; [now apply G |].
  intros Hr. unfold scalar_to_color. simpl. now apply G.
Qed.

Lemma hsv2rgb_large_hue_witness :
  hsv2rgb (9, 9, 9)%Q (10 # 1) 1 1 = (9, 9, 9)%Q.
Proof.
  refine (proj1 (hsv2rgb_large_hue (9, 9, 9)%Q (10 # 1) 1 1 (fun _ _ => 0%Q) grid2 0 0 _)).
  discriminate.
Defined.

(** X17: colouring by direction (method 1 of [scalar_to_color]) yields
    channels in [0,1] whenever [atan2] returns an angle of magnitude at
    most the constant 3.1415927 the code divides by. *)
Theorem direction_color_range (atan2_ : Q -> Q -> Q) (c : rgb) (m : mem) (x y : Q) :
  (- (31415927 # 10000000) <= atan2_ y x <= 31415927 # 10000000)%Q ->
  let '(r, g, b) := scalar_to_color atan2_ c m x y 1 in
  (0 <= r <= 1)%Q /\ (0 <= g <= 1)%Q /\ (0 <= b <= 1)%Q.
Proof.
  intros [H1 H2]. unfold scalar_to_color. simpl Z.eqb. cbv iota zeta.
  set (w := (atan2_ y x / (31415927 # 10000000))%Q).
  assert (W : (-1 <= w <= 1)%Q).
  { unfold w. split.
    - apply Qle_shift_div_l; [reflexivity | lra].
    - apply Qle_shift_div_r; [reflexivity | lra]. }
  repeat match goal with
         | |- context [Qle_bool ?a ?b] =>
             let E := fresh "E" in
             destruct (Qle_bool a b) eqn:E;
             [apply Qle_bool_iff in E
             | assert (~ (a <= b)%Q) by (rewrite <- Qle_bool_iff; congruence); clear E]
         end;
    repeat split; lra.
Qed.

Lemma direction_color_range_witness :
  let '(r, g, b) := scalar_to_color (fun _ _ => 1%Q) (9, 9, 9)%Q grid2 1 1 1 in
  (0 <= r <= 1)%Q /\ (0 <= g <= 1)%Q /\ (0 <= b <= 1)%Q.
Proof.
  apply (direction_color_range (fun _ _ => 1%Q) (9, 9, 9)%Q grid2 1 1).
  split; discriminate.
Defined.

(** X18: in banded mode [set_colormap] quantises to seven levels: every
    value in the band [[k/7, (k+1)/7)], [k >= 0], gets the rainbow colour
    of the band's lower edge [k/7]. *)
Theorem set_colormap_bands (max_ : Q -> Q -> Q) (c : rgb) (vy : Q) (k : Z) :
  0 <= k -> (inject_Z k / 7 <= vy)%Q -> (vy < inject_Z (k + 1) / 7)%Q ->
  set_colormap max_ c COLOR_BANDS vy = rainbow max_ (inject_Z k / inject_Z 7).
Proof.
  intros Hk H1 H2. unfold set_colormap. simpl Z.eqb. cbv iota zeta.
  assert (K0 : (0 <= inject_Z k)%Q).
  { change 0%Q with (inject_Z 0). now rewrite <- Zle_Qle. }
  assert (L : (inject_Z k <= vy * inject_Z 7)%Q).
  { change (inject_Z 7) with (7 # 1).
    apply (Qmult_le_compat_r _ _ (7 # 1)) in H1; [| discriminate].
    assert (E : (inject_Z k / 7 * (7 # 1) == inject_Z k)%Q) by field.
    rewrite E in H1. exact H1. }
  assert (U : (vy * inject_Z 7 < inject_Z k + 1)%Q).
  { change (inject_Z 7) with (7 # 1).
    rewrite inject_Z_plus in H2. change (inject_Z 1) with 1%Q in H2.
    apply (Qmult_lt_compat_r _ _ (7 # 1)) in H2; [| reflexivity].
    assert (E : ((inject_Z k + 1) / 7 * (7 # 1) == inject_Z k + 1)%Q) by field.
    rewrite E in H2. exact H2. }
  rewrite Qtrunc_nonneg by lra.
  now rewrite (Qfloor_unique _ k L U).
Qed.

Lemma set_colormap_bands_witness :
  set_colormap cmax (9, 9, 9)%Q COLOR_BANDS (1 # 2) = rainbow cmax (inject_Z 3 / inject_Z 7).
Proof.
  apply (set_colormap_bands cmax (9, 9, 9)%Q (1 # 2) 3); [lia | discriminate | reflexivity].
Defined.

(** * Interaction *)

Ltac key_cases key :=
  unfold keyboard; cbv zeta;
  repeat match goal with
         | |- context [Ascii.eqb key ?k] => destruct (Ascii.eqb key k)
         end.

Lemma rotational_increment_range (x max : Z) :
  0 < max -> 0 <= x -> 0 <= rotational_increment x max < max.
Proof.
  intros Hm Hx. unfold rotational_increment.
  destruct (Z.leb_spec max (x + 1)); lia.
Qed.

(** X19: every key keeps the mode flags valid -- the colour map in 0..2,
    the scalar type in 0..3, the vector type in 0..1, and at least one of
    smoke and glyphs switched on -- so that the colour [set_colormap]
    hands to [glColor3f] never comes from its uninitialised locals. *)
Theorem keyboard_keeps_modes (key : ascii) (x y : Z) (a : app) :
  modes_ok (ui a) ->
  modes_ok (ui (keyboard key x y a)) /\
  forall (max_ : Q -> Q -> Q) (c c' : rgb) (vy : Q),
    set_colormap max_ c (scalar_col (ui (keyboard key x y a))) vy
    = set_colormap max_ c' (scalar_col (ui (keyboard key x y a))) vy.
Proof.
  intros M.
  assert (K : modes_ok (ui (keyboard key x y a))).
  { destruct M as (M1 & M2 & M3 & M4 & M5 & M6).
    pose proof (rotational_increment_range (scalar_type (ui a)) 4 ltac:(lia) ltac:(lia)).
    pose proof (rotational_increment_range (vector_type (ui a)) 2 ltac:(lia) ltac:(lia)).
    key_cases key; unfold modes_ok, with_ui, with_sim, COLOR_BANDS, COLOR_BLACKWHITE;
      simpl;
      repeat match goal with
             | |- context [Z.eqb ?u ?v] => destruct (Z.eqb_spec u v)
             | |- context [Z.ltb ?u ?v] => destruct (Z.ltb_spec u v)
             end; lia. }
  split; [exact K |].
  intros max_ c c' vy. destruct K as (K1 & _).
  unfold set_colormap, COLOR_BLACKWHITE, COLOR_RAINBOW, COLOR_BANDS.
  repeat match goal with
         | |- context [Z.eqb ?u ?v] => destruct (Z.eqb_spec u v)
         end; try reflexivity; lia.
Qed.

Lemma keyboard_keeps_modes_witness :
  modes_ok (ui (keyboard "y" 0 0 example_app)).
Proof.
  refine (proj1 (keyboard_keeps_modes "y" 0 0 example_app _)).
  unfold modes_ok. simpl. lia.
Defined.

(** X20: the key 'a' pauses and resumes: pressed while the simulation
    runs it makes the idle callback a no-op, and pressed again it gives
    back exactly the state before the first press. *)
Theorem pause_resume (L : libs) (a : app) (x y x' y' : Z) :
  frozen (sim a) = 0 ->
  let p := keyboard "a" x y a in
  frozen (sim p) = 1 /\ idle L p = p /\ keyboard "a" x' y' p = a.
Proof.
  intros Hf. destruct a as [s v lx ly o e]. destruct s as [m prc pcr d nu fr rd].
  simpl in Hf. subst fr. cbv zeta.
  repeat split.
Qed.

Lemma pause_resume_witness :
  idle libs2 (keyboard "a" 0 0 example_app) = keyboard "a" 0 0 example_app.
Proof.
  refine (proj1 (proj2 (pause_resume libs2 example_app 0 0 0 0 _))). reflexivity.
Defined.

(** X21: no key touches the fields or the plans: whatever is pressed,
    the eight arrays, both plans, the redisplay count and the remembered
    mouse position are as before. *)
Theorem keyboard_frame (key : ascii) (x y : Z) (a : app) :
  bufs (sim (keyboard key x y a)) = bufs (sim a) /\
  plan_rc (sim (keyboard key x y a)) = plan_rc (sim a) /\
  plan_cr (sim (keyboard key x y a)) = plan_cr (sim a) /\
  redisplays (sim (keyboard key x y a)) = redisplays (sim a) /\
  lmx (keyboard key x y a) = lmx a /\ lmy (keyboard key x y a) = lmy a.
Proof.
  key_cases key; repeat split.
Qed.

(** ** Dragging *)

Lemma drag_cell_range (v : view) (mx my : Z) :
  0 <= drag_cell v mx my < DIM * DIM.
Proof.
  unfold drag_cell. cbv zeta. unfold DIM.
  repeat match goal with
         | |- context [Z.ltb ?u ?w] => destruct (Z.ltb_spec u w)
         end; lia.
Qed.

Lemma drag_bufs (sqrt_ : Q -> Q) (mx my : Z) (a : app) :
  bufs (sim (drag sqrt_ mx my a))
  = store (store (store (bufs (sim a)) Pfx (drag_cell (ui a) mx my)
                    (load (bufs (sim a)) Pfx (drag_cell (ui a) mx my)
                     + fst (drag_force sqrt_ a mx my))%Q)
             Pfy (drag_cell (ui a) mx my)
             (load (bufs (sim a)) Pfy (drag_cell (ui a) mx my)
              + snd (drag_force sqrt_ a mx my))%Q)
      Prho (drag_cell (ui a) mx my) (10 # 1).
Proof.
  unfold drag. destruct (drag_force sqrt_ a mx my) as [dx dy]. simpl.
  rewrite load_store_other by discriminate. reflexivity.
Qed.

(** X22: [drag] writes one in-bounds cell and nothing else: for a window
    of positive size and any pointer position the cell index lies in
    [0, DIM*DIM); there the density becomes 10 and the force grows by the
    drag force; every other cell of every array, velocities included, is
    left as it was. *)
Theorem drag_writes_one_cell (sqrt_ : Q -> Q) (mx my : Z) (a : app) :
  0 < winWidth (ui a) -> 0 < winHeight (ui a) ->
  (forall p, (Z.to_nat (DIM * DIM) <= length (bufs (sim a) p))%nat) ->
  let c := drag_cell (ui a) mx my in
  let m := bufs (sim a) in
  let m' := bufs (sim (drag sqrt_ mx my a)) in
  0 <= c < DIM * DIM /\
  load m' Prho c = (10 # 1)%Q /\
  load m' Pfx c = (load m Pfx c + fst (drag_force sqrt_ a mx my))%Q /\
  load m' Pfy c = (load m Pfy c + snd (drag_force sqrt_ a mx my))%Q /\
  forall p k, ~ ((p = Pfx \/ p = Pfy \/ p = Prho) /\ k = Z.to_nat c) ->
              m' p !! k = m p !! k.
Proof.
  intros Hw Hh Hlen. cbv zeta.
  pose proof (drag_cell_range (ui a) mx my) as Hc.
  set (c := drag_cell (ui a) mx my) in *.
  assert (In : forall p, (Z.to_nat c < length (bufs (sim a) p))%nat).
  { intros p. specialize (Hlen p). lia. }
  rewrite drag_bufs. fold c.
  split; [exact Hc |]. split; [| split; [| split]].
  - apply load_lookup. apply store_lookup_eq. rewrite !store_length. apply In.
  - apply load_lookup.
    rewrite store_lookup_ne by (intros [? _]; discriminate).
    rewrite store_lookup_ne by (intros [? _]; discriminate).
    apply store_lookup_eq. apply In.
  - apply load_lookup.
    rewrite store_lookup_ne by (intros [? _]; discriminate).
    apply store_lookup_eq. rewrite store_length. apply In.
  - intros p k H.
    rewrite !store_lookup_ne; [reflexivity | | |]; intros [-> ->]; apply H; auto.
Qed.

Lemma drag_writes_one_cell_witness :
  load (bufs (sim (drag sqrt25 3 896 example_app))) Prho (drag_cell (ui example_app) 3 896)
  = (10 # 1)%Q.
Proof.
  refine (proj1 (proj2 (drag_writes_one_cell sqrt25 3 896 example_app _ _ _))).
  - reflexivity.
  - reflexivity.
  - intros p. apply Nat.leb_le. destruct p; vm_compute; reflexivity.
Defined.

(** X23: when the pointer has moved and [sqrt] returns a root of the
    squared distance, the force [drag] adds has length 0.1: its squared
    norm is exactly 0.01, whatever the distance moved. *)
Theorem drag_force_norm (sqrt_ : Q -> Q) (mx my : Z) (a : app) :
  let dx := inject_Z (mx - lmx a) in
  let dy := inject_Z (winHeight (ui a) - my - lmy a) in
  let len := sqrt_ (dx * dx + dy * dy)%Q in
  (len * len == dx * dx + dy * dy)%Q -> ~ (len == 0)%Q ->
  let '(fx', fy') := drag_force sqrt_ a mx my in
  (fx' * fx' + fy' * fy' == 1 # 100)%Q.
Proof.
  intros dx dy len Hs Hn. unfold drag_force. cbv zeta. fold dx dy len.
  destruct (Qeq_bool len 0) eqn:E.
  { apply Qeq_bool_iff in E. contradiction. }
  assert (G : (dx * ((1 # 10) / len) * (dx * ((1 # 10) / len))
               + dy * ((1 # 10) / len) * (dy * ((1 # 10) / len))
               == (1 # 100) * (dx * dx + dy * dy) / (len * len))%Q)
    by (field; exact Hn).
  rewrite G, <- Hs. field. exact Hn.
Qed.

Lemma drag_force_norm_witness :
  let '(fx', fy') := drag_force sqrt25 example_app 3 896 in
  (fx' * fx' + fy' * fy' == 1 # 100)%Q.
Proof.
  apply (drag_force_norm sqrt25 3 896 example_app).
  - reflexivity.
  - discriminate.
Defined.

(** X24: injected smoke enters the solver decayed once: after a drag (in
    a window of positive size) the next [set_forces] leaves 9.95 in the
    density scratch cell under the pointer, whatever the density there
    was. *)
Theorem drag_then_set_forces (sqrt_ : Q -> Q) (mx my : Z) (a : app) :
  0 < winWidth (ui a) -> 0 < winHeight (ui a) ->
  (forall p, (Z.to_nat (DIM * DIM) <= length (bufs (sim a) p))%nat) ->
  (load (set_forces (bufs (sim (drag sqrt_ mx my a)))) Prho0
     (drag_cell (ui a) mx my) == 995 # 100)%Q.
Proof.
  intros Hw Hh Hlen.
  pose proof (drag_cell_range (ui a) mx my) as Hc.
  set (c := drag_cell (ui a) mx my) in *.
  assert (In : forall p, (Z.to_nat c < length (bufs (sim a) p))%nat).
  { intros p. specialize (Hlen p). lia. }
  assert (E : load (set_forces (bufs (sim (drag sqrt_ mx my a)))) Prho0 c
              = (decay_rho * (10 # 1))%Q).
  { apply load_lookup. rewrite set_forces_lookup; auto; try lia.
    - unfold set_forces_val. do 2 f_equal.
      rewrite drag_bufs. fold c.
      rewrite store_lookup_eq by (rewrite !store_length; apply In). reflexivity.
    - rewrite drag_bufs. rewrite !store_length. apply In. }
  rewrite E. reflexivity.
Qed.

Lemma drag_then_set_forces_witness :
  (load (set_forces (bufs (sim (drag sqrt25 3 896 example_app)))) Prho0
     (drag_cell (ui example_app) 3 896) == 995 # 100)%Q.
Proof.
  apply (drag_then_set_forces sqrt25 3 896 example_app).
  - reflexivity.
  - reflexivity.
  - intros p. apply Nat.leb_le. destruct p; vm_compute; reflexivity.
Defined.
